(** * array_nd_ref: a reference wrapper for C arrays of any rank

    Shallow embedding of [array_nd_ref.hpp] (and of the part of
    [traits.hpp] it relies on) together with the properties of indexing,
    comparison, assignment, fill and swap.

    Model.
    - An array type [T[E1][E2]...[ER]] is the list of its extents
      [[E1; E2; ...; ER]] (a [shape]); the scalar type [T] is the parameter
      [V] of the development.  The empty list is "not an array".
    - Storage is one flat memory of scalars, addressed in units of one
      scalar.  An array of shape [E :: X] at address [p] is the contiguous
      run of [E] elements of shape [X], element [i] at [p + i * array_size X]:
      the layout [T[L][M][N] == [L x [M x [N x T]]]] the header describes.
    - A pointer or a reference is the address of its first scalar; the
      wrapper is a record with its single data member [a].
    - A mutating member function takes the object and the memory and returns
      both as they are after the call.
    - Extents are below 2^32, the range of the [unsigned] loop counters of
      the header, so that a counter never wraps. *)

From Stdlib Require Import List Arith Lia Bool ZArith.
Import ListNotations.

Set Implicit Arguments.

(** ** Array types *)

Definition addr := nat.

Definition shape := list nat.

(** [std::rank_v<A>] *)
Definition rank (A : shape) : nat := length A.

(** [std::extent_v<A>]: the outermost extent, 0 when [A] is not an array. *)
Definition extent (A : shape) : nat :=
  match A with
  | [] => 0
  | N :: _ => N
  end.

(** [std::remove_extent_t<A>] *)
Definition remove_extent (A : shape) : shape :=
  match A with
  | [] => []
  | _ :: X => X
  end.

(** traits.hpp: [array_size<T> = rank_v<T> ?
    array_size<remove_extent_t<T>> * extent_v<T> : 1] *)
Fixpoint array_size (T : shape) : nat :=
  match T with
  | [] => 1
  | N :: X => array_size X * N
  end.

(** The constraint of the class template:
    [requires std::is_array_v<A> && std::extent_v<A> != 0]. *)
Definition requires_array (A : shape) : bool :=
  negb (rank A =? 0) && negb (extent A =? 0).

(** ** Scalars and memory *)

(** The operators of the element type that the header uses, and its
    value-initialisation [T{}].  For the built-in scalar types [x != y] is
    [!(x == y)]. *)
Class Scalar (V : Type) := {
  zero : V;
  eqv : V -> V -> bool;
  nev : V -> V -> bool;
  ltv : V -> V -> bool;
  nev_eqv : forall u v, nev u v = negb (eqv u v)
}.

#[export] Instance Scalar_int : Scalar Z := {
  zero := 0%Z;
  eqv := Z.eqb;
  nev := fun u v => negb (Z.eqb u v);
  ltv := Z.ltb;
  nev_eqv := fun _ _ => eq_refl
}.

#[export] Instance Scalar_bool : Scalar bool := {
  zero := false;
  eqv := Bool.eqb;
  nev := xorb;
  ltv := fun u v => negb u && v;
  nev_eqv := fun u v =>
    match u, v with
    | true, true | true, false | false, true | false, false => eq_refl
    end
}.

(** ** Loops *)

(** [for (i = i0; i < i0 + n; ++i) s = body i s;] *)
Fixpoint for_loop {St : Type} (n i : nat) (body : nat -> St -> St) (s : St)
    : St :=
  match n with
  | 0 => s
  | S n' => for_loop n' (S i) body (body i s)
  end.

(** The same loop over a body that may [return]: [Some r] is [return r],
    [None] falls through to the next iteration; [after] is the statement
    that follows the loop. *)
Fixpoint for_return {R : Type} (n i : nat) (body : nat -> option R)
    (after : R) : R :=
  match n with
  | 0 => after
  | S n' =>
      match body i with
      | Some r => r
      | None => for_return n' (S i) body after
      end
  end.

(** ** Exceptions *)

(** A call either returns or throws [std::out_of_range], the one
    exception the header throws. *)
Inductive outcome (R : Type) : Type :=
  | Returns (r : R)
  | Throws_out_of_range.
Arguments Throws_out_of_range {R}.

Section Wrapper.

Context {V : Type} `{Scalar V}.

Definition mem := addr -> V.

Definition store (m : mem) (p : addr) (v : V) : mem :=
  fun q => if q =? p then v else m q.

(** ** The standard algorithms the header calls *)

(** [std::fill_n(first, n, e)] *)
Fixpoint fill_n (first : addr) (n : nat) (e : V) (m : mem) : mem :=
  match n with
  | 0 => m
  | S n' => fill_n (S first) n' e (store m first e)
  end.

(** [std::copy(first, first + n, d_first)]:
    [while (first != last) *d_first++ = *first++;] *)
Fixpoint copy (first : addr) (n : nat) (d_first : addr) (m : mem) : mem :=
  match n with
  | 0 => m
  | S n' => copy (S first) n' (S d_first) (store m d_first (m first))
  end.

(** [std::swap(x, y)] for two objects of type [X] at [p] and [q].
    A scalar goes through a temporary: [T t = move(x); x = move(y);
    y = move(t);].  An array [X'[N]] is [std::swap_ranges(x, x + N, y)],
    which swaps element by element. *)
Fixpoint swap_value (X : shape) (p q : addr) (m : mem) : mem :=
  match X with
  | [] =>
      let t := m p in
      let m1 := store m p (m q) in
      store m1 q t
  | N :: X' =>
      for_loop N 0
        (fun i m' =>
           swap_value X' (p + i * array_size X') (q + i * array_size X') m')
        m
  end.

(** [std::swap_ranges(first1, first1 + n, first2)] over elements of type
    [X]. *)
Definition swap_ranges (X : shape) (first1 : addr) (n : nat) (first2 : addr)
    (m : mem) : mem :=
  for_loop n 0
    (fun i m' =>
       swap_value X (first1 + i * array_size X) (first2 + i * array_size X) m')
    m.

(** [std::lexicographical_compare(first1, first1 + n1, first2, first2 + n2)]:
<<
    for (; first1 != last1 && first2 != last2; ++first1, ++first2) {
        if ( *first1 < *first2 ) return true;
        if ( *first2 < *first1 ) return false;
    }
    return first1 == last1 && first2 != last2;
>> *)
Fixpoint lexicographical_compare (first1 : addr) (n1 : nat) (first2 : addr)
    (n2 : nat) (m : mem) : bool :=
  match n1, n2 with
  | S n1', S n2' =>
      if ltv (m first1) (m first2) then true
      else if ltv (m first2) (m first1) then false
      else lexicographical_compare (S first1) n1' (S first2) n2' m
  | 0, S _ => true
  | _, 0 => false
  end.

(** ** The wrapper *)

(** [struct array_nd_ref { pointer a; ... }]: the template argument [A] is
    passed to every operation. *)
Record array_nd_ref : Type := mk_ref { a : addr }.

(** [array_nd_ref{arr}] for an array lvalue at [arr]: the deduction guide
    picks [array_nd_ref<A>] and the array decays to the pointer the
    constructor stores. *)
Definition bind (arr : addr) : array_nd_ref := mk_ref arr.

(** [operator[](size_t I) { return a[I]; }]: [a] points to elements of type
    [remove_extent_t<A>]. *)
Definition subscript (A : shape) (this : array_nd_ref) (I : nat) : addr :=
  a this + I * array_size (remove_extent A).

(** [operator()(size_t I)], branch [rank == 1]: [return a[I];] *)
Definition paren_elem (A : shape) (this : array_nd_ref) (I : nat) : addr :=
  subscript A this I.

(** [operator()(size_t I)], branch [rank > 1]:
    [return ::array_nd_ref{a[I]};] *)
Definition paren_sub (A : shape) (this : array_nd_ref) (I : nat)
    : array_nd_ref :=
  bind (subscript A this I).

(** What [operator()] returns: a reference to a scalar or a wrapper. *)
Inductive paren_result : Type :=
  | Elem (p : addr)
  | Sub (w : array_nd_ref).

Definition paren (A : shape) (this : array_nd_ref) (I : nat) : paren_result :=
  if rank A =? 1 then Elem (paren_elem A this I)
  else Sub (paren_sub A this I).

(** [at(size_t I)]:
    [if (I >= extent) throw(std::out_of_range(...)); return a[I];]
    The const overload has the same body.  The memory is threaded through
    to record that the function writes nothing. *)
Definition at_ (A : shape) (this : array_nd_ref) (I : nat) (m : mem)
    : outcome addr * mem :=
  if extent A <=? I then (Throws_out_of_range, m)
  else (Returns (subscript A this I), m).

(** [get<I>(array_nd_ref<A>& a) { return a[I]; }] under the constraint
    [requires I < std::extent_v<A>]; the rvalue overload forwards to it. *)
Definition get_requires (I : nat) (A : shape) : bool := I <? extent A.

Definition get (I : nat) (A : shape) (w : array_nd_ref) : addr :=
  subscript A w I.

(** [begin()] and [end()] *)
Definition begin_ (this : array_nd_ref) : addr := a this.

Definition end_ (A : shape) (this : array_nd_ref) : addr :=
  a this + extent A * array_size (remove_extent A).

(** [size()] *)
Definition size (A : shape) : nat := extent A.

(** [fill(value_type const& e)]:
<<
    if constexpr (rank == 1)
        std::fill_n(a, extent, e);
    else
        for (unsigned i=0; i<extent; ++i)
            operator()(i).fill(e);
>> *)
Fixpoint fill (A : shape) (this : array_nd_ref) (e : V) (m : mem)
    : array_nd_ref * mem :=
  match A with
  | [] => (this, m)
  | N :: X =>
      match X with
      | [] => (this, fill_n (a this) N e m)
      | _ :: _ =>
          (this,
           for_loop N 0
             (fun i m' => snd (fill X (paren_sub (N :: X) this i) e m')) m)
      end
  end.

(** [operator=(array_type const& rhs)]; [rhs] is the address of the source
    array.  The value returned is a copy of [*this].
<<
    if constexpr (rank == 1)
        std::copy(rhs, rhs+extent, a);
    else
        for (unsigned i=0; i<extent; ++i)
            operator()(i) = rhs[i];
    return *this;
>> *)
Fixpoint assign (A : shape) (this : array_nd_ref) (rhs : addr) (m : mem)
    : array_nd_ref * mem :=
  match A with
  | [] => (this, m)
  | N :: X =>
      match X with
      | [] => (this, copy rhs N (a this) m)
      | _ :: _ =>
          (this,
           for_loop N 0
             (fun i m' =>
                snd (assign X (paren_sub (N :: X) this i)
                       (rhs + i * array_size X) m'))
             m)
      end
  end.

(** [swap(A& b) { std::swap_ranges(a, a+extent, b); }] *)
Definition swap_array (A : shape) (this : array_nd_ref) (b : addr) (m : mem)
    : array_nd_ref * mem :=
  (this, swap_ranges (remove_extent A) (a this) (extent A) b m).

(** [swap(array_nd_ref b) { std::swap(a, b.a); }]: the body, on the object
    and on the parameter object [b]; the result is both after the body. *)
Definition swap_ref_body (this b : array_nd_ref)
    : array_nd_ref * array_nd_ref :=
  let t := a this in
  (mk_ref (a b), mk_ref t).

(** The call [x.swap(y)] for two wrappers: the parameter is declared
    [array_nd_ref b], so it is copy-initialised from [y] and the body works
    on that copy.  The result is the caller's [x] and [y] after the call. *)
Definition swap_ref (x y : array_nd_ref) : array_nd_ref * array_nd_ref :=
  let b := y in
  let '(x', _) := swap_ref_body x b in
  (x', y).

(** The call [swap(x, y)] of the free function
    [swap(array_nd_ref<A> x, array_nd_ref<A> y) { x.swap(y); }]: both
    parameters are copies of the caller's objects. *)
Definition swap_free (x y : array_nd_ref) : array_nd_ref * array_nd_ref :=
  let px := x in
  let py := y in
  let '(_, _) := swap_ref px py in
  (x, y).

(** The free functions over a wrapper and an array,
    [swap(array_nd_ref<A> x, A& y) { x.swap(y); }] and
    [swap(A& x, array_nd_ref<A> y) { y.swap(x); }]; the wrapper is a copy,
    the array is passed by reference. *)
Definition swap_free_ref_array (A : shape) (x : array_nd_ref) (y : addr)
    (m : mem) : array_nd_ref * mem :=
  (x, snd (swap_array A x y m)).

Definition swap_free_array_ref (A : shape) (x : addr) (y : array_nd_ref)
    (m : mem) : array_nd_ref * mem :=
  (y, snd (swap_array A y x m)).

(** ** Comparisons *)

(** [operator==(array_nd_ref<A> x, array_nd_ref<Ac> y)]:
<<
    if constexpr (std::rank<A>::value == 1)
        return [x,y]()->bool
        {
            for (size_t i=0; i != x.size(); ++i)
                if (x(i) != y(i)) return false;
            return true;
        }();
    else
    {
        for (unsigned i=0; i < std::extent_v<A>; ++i)
            if (!(x(i) == y(i)))
                return false;
        return true;
    }
>> *)
Fixpoint eq_ref (A : shape) (x y : array_nd_ref) (m : mem) : bool :=
  match A with
  | [] => true
  | N :: X =>
      match X with
      | [] =>
          for_return (size (N :: X)) 0
            (fun i =>
               if nev (m (paren_elem (N :: X) x i))
                      (m (paren_elem (N :: X) y i))
               then Some false else None)
            true
      | _ :: _ =>
          for_return N 0
            (fun i =>
               if negb (eq_ref X (paren_sub (N :: X) x i)
                                 (paren_sub (N :: X) y i) m)
               then Some false else None)
            true
      end
  end.

(** [operator!=(x, y) { return !(x == y); }] *)
Definition ne_ref (A : shape) (x y : array_nd_ref) (m : mem) : bool :=
  negb (eq_ref A x y m).

(** [operator<(array_nd_ref<A> x, array_nd_ref<Ac> y)]; in the loop
    [x(i) > y(i)] is [operator>] on the two sub-wrappers, which is
    [y(i) < x(i)].
<<
    if constexpr (std::rank<A>::value == 1)
        return std::lexicographical_compare(x.begin(), x.end(),
                                            y.begin(), y.end());
    else
    {
        for (unsigned i=0; i < std::extent_v<A>; ++i)
            if ((x(i) < y(i)))
                return true;
            else if ((x(i) > y(i)))
                return false;
        return false;
    }
>> *)
Fixpoint lt_ref (A : shape) (x y : array_nd_ref) (m : mem) : bool :=
  match A with
  | [] => false
  | N :: X =>
      match X with
      | [] => lexicographical_compare (begin_ x) N (begin_ y) N m
      | _ :: _ =>
          let gt := fun u v => lt_ref X v u m in
          for_return N 0
            (fun i =>
               if lt_ref X (paren_sub (N :: X) x i) (paren_sub (N :: X) y i) m
               then Some true
               else if gt (paren_sub (N :: X) x i) (paren_sub (N :: X) y i)
               then Some false
               else None)
            false
      end
  end.

(** [operator>(x, y) { return y < x; }] *)
Definition gt_ref (A : shape) (x y : array_nd_ref) (m : mem) : bool :=
  lt_ref A y x m.

(** [operator<=(x, y) { return !(y < x); }] *)
Definition le_ref (A : shape) (x y : array_nd_ref) (m : mem) : bool :=
  negb (lt_ref A y x m).

(** [operator>=(x, y) { return !(x < y); }] *)
Definition ge_ref (A : shape) (x y : array_nd_ref) (m : mem) : bool :=
  negb (lt_ref A x y m).

(** The member comparisons with an array on the right wrap it and call the
    comparison of two wrappers:
    [operator==(A const& y) const { return *this == array_nd_ref<A const>{y}; }]
    and likewise [operator<]. *)
Definition eq_array (A : shape) (this : array_nd_ref) (y : addr) (m : mem)
    : bool :=
  eq_ref A this (bind y) m.

(** [operator!=(A const& y) const { return !operator==(y); }] *)
Definition ne_array (A : shape) (this : array_nd_ref) (y : addr) (m : mem)
    : bool :=
  negb (eq_array A this y m).

Definition lt_array (A : shape) (this : array_nd_ref) (y : addr) (m : mem)
    : bool :=
  lt_ref A this (bind y) m.

(** ** Address ranges *)

(** [q] is one of the [n] addresses from [p] on. *)
Definition in_range (p n q : addr) : bool := (p <=? q) && (q <? p + n).

(** The source range is read before the copy overwrites it when the
    destination starts at or before the source, or after its end. *)
Definition copy_safe (dst src n : addr) : Prop := dst <= src \/ src + n <= dst.

(** Two objects of [n] scalars are the same object or do not overlap. *)
Definition same_or_apart (p q n : addr) : Prop :=
  p = q \/ p + n <= q \/ q + n <= p.

(** The memory after the objects at [p] and [q] have exchanged their [n]
    scalars. *)
Definition exchanged (p q n : addr) (m : mem) : mem :=
  fun r =>
    if in_range p n r then m (q + (r - p))
    else if in_range q n r then m (p + (r - q))
    else m r.

(** ** Row-major flattening and lexicographic order *)

(** The scalars of the array of type [A] at [p], outermost dimension
    first: the flattenings of element 0, element 1, ... one after the
    other. *)
Fixpoint flatten (A : shape) (p : addr) (m : mem) : list V :=
  match A with
  | [] => [m p]
  | N :: X => flat_map (fun i => flatten X (p + i * array_size X) m) (seq 0 N)
  end.

(** The first place at which two sequences differ under [<], and which
    side is the smaller there: the loop of
    [std::lexicographical_compare], stopped at its first [return]. *)
Fixpoint first_diff (u v : list V) : option bool :=
  match u, v with
  | s :: u', t :: v' =>
      if ltv s t then Some true
      else if ltv t s then Some false
      else first_diff u' v'
  | _, _ => None
  end.

Definition decides_less (d : option bool) : bool :=
  match d with
  | Some true => true
  | _ => false
  end.

(** [u] is lexicographically less than [v]: they agree on a prefix after
    which [u] has the smaller element, or [u] is a proper prefix of [v]. *)
Definition lex_less (u v : list V) : Prop :=
  (exists k s t,
      nth_error u k = Some s /\ nth_error v k = Some t /\
      firstn k u = firstn k v /\ ltv s t = true)
  \/ (exists t w, v = u ++ t :: w).

(** ** Assignment from a braced list *)

(** An initialiser: an expression of the scalar type or a braced list of
    initialisers.  Brace elision is not modelled: an array is initialised
    by a braced list with one clause for each element it gives. *)
#[local] Set Warnings "-register-all".
Inductive init_list : Type :=
  | Init_scalar (v : V)
  | Init_braces (l : list init_list).

(** Initialisation of an object of type [A] at [p] from an initialiser, as
    the language defines it (aggregate initialisation, [dcl.init.aggr]):
    element [i] of an array is initialised from clause [i] of the braced
    list, and an element with no clause is initialised from an empty
    braced list; a scalar initialised from an empty braced list is
    value-initialised. *)
Fixpoint aggregate_init (A : shape) (init : init_list) (p : addr) (m : mem)
    : mem :=
  match A with
  | [] =>
      match init with
      | Init_scalar v => store m p v
      | Init_braces [] => store m p zero
      | Init_braces (_ :: _) => m
      end
  | N :: X =>
      match init with
      | Init_scalar _ => m
      | Init_braces l =>
          for_loop N 0
            (fun i m' =>
               aggregate_init X (nth i l (Init_braces []))
                 (p + i * array_size X) m')
            m
      end
  end.

(** The braced lists this development covers for an object of type [A]: a
    list for every array with no more clauses than elements, an expression
    or an empty list for a scalar. *)
Fixpoint well_formed_init (A : shape) (init : init_list) : bool :=
  match A with
  | [] =>
      match init with
      | Init_scalar _ => true
      | Init_braces [] => true
      | Init_braces _ => false
      end
  | N :: X =>
      match init with
      | Init_scalar _ => false
      | Init_braces l => (length l <=? N) && forallb (well_formed_init X) l
      end
  end.

(** [array_nd_ref{b} = { ... }]: the parameter [array_type const& rhs] of
    [operator=] binds to a temporary array, at [tmp], initialised from the
    braced list. *)
Definition assign_init (A : shape) (this : array_nd_ref) (init : init_list)
    (tmp : addr) (m : mem) : array_nd_ref * mem :=
  assign A this tmp (aggregate_init A init tmp m).

(** The value a braced list gives for the scalar at the multi-index [idx],
    if it has a clause for it. *)
Fixpoint specified (idx : list nat) (init : init_list) : option V :=
  match idx with
  | [] =>
      match init with
      | Init_scalar v => Some v
      | Init_braces _ => None
      end
  | i :: idx' =>
      match init with
      | Init_scalar _ => None
      | Init_braces l =>
          match nth_error l i with
          | Some e => specified idx' e
          | None => None
          end
      end
  end.

(** The place of the scalar [x[i1][i2]...[iR]] from the start of [x]. *)
Fixpoint offset (A : shape) (idx : list nat) : nat :=
  match A, idx with
  | _ :: X, i :: idx' => i * array_size X + offset X idx'
  | _, _ => 0
  end.

(** A multi-index with one index below the extent for every dimension. *)
Fixpoint valid_index (A : shape) (idx : list nat) : bool :=
  match A, idx with
  | [], [] => true
  | N :: X, i :: idx' => (i <? N) && valid_index X idx'
  | _, _ => false
  end.

(** ** The four ways to one element *)

Inductive access_path : Type :=
  | Direct       (* w[i] *)
  | Wrapped      (* w(i) *)
  | Checked      (* w.at(i) *)
  | Positional.  (* get<i>(w) *)

(** The address an access designates: that of the element or subarray
    referred to, for [w(i)] of rank above 1 the handle of the wrapper
    returned; nothing when [at] throws or [get<i>] is not viable. *)
Definition designated (path : access_path) (A : shape) (w : array_nd_ref)
    (i : nat) (m : mem) : option addr :=
  match path with
  | Direct => Some (subscript A w i)
  | Wrapped =>
      match paren A w i with
      | Elem p => Some p
      | Sub s => Some (a s)
      end
  | Checked =>
      match fst (at_ A w i m) with
      | Returns p => Some p
      | Throws_out_of_range => None
      end
  | Positional => if get_requires i A then Some (get i A w) else None
  end.

(** ** The operations as one family *)

(** A call of an operation of the wrapper with its arguments. *)
Inductive core_op : Type :=
  | Op_subscript (A : shape) (w : array_nd_ref) (I : nat)
  | Op_paren (A : shape) (w : array_nd_ref) (I : nat)
  | Op_at (A : shape) (w : array_nd_ref) (I : nat)
  | Op_get (I : nat) (A : shape) (w : array_nd_ref)
  | Op_size (A : shape)
  | Op_begin (w : array_nd_ref)
  | Op_end (A : shape) (w : array_nd_ref)
  | Op_fill (A : shape) (w : array_nd_ref) (e : V)
  | Op_assign (A : shape) (w : array_nd_ref) (rhs : addr)
  | Op_swap_array (A : shape) (w : array_nd_ref) (b : addr)
  | Op_swap_ref (x y : array_nd_ref)
  | Op_swap_free (x y : array_nd_ref)
  | Op_eq (A : shape) (x y : array_nd_ref)
  | Op_ne (A : shape) (x y : array_nd_ref)
  | Op_lt (A : shape) (x y : array_nd_ref)
  | Op_gt (A : shape) (x y : array_nd_ref)
  | Op_le (A : shape) (x y : array_nd_ref)
  | Op_ge (A : shape) (x y : array_nd_ref).

(** What a call hands back: nothing, a reference or pointer, a number, a
    truth value, or the wrappers it worked on. *)
Inductive result : Type :=
  | Done
  | Reference (p : addr)
  | Count (n : nat)
  | Truth (b : bool)
  | Object (w : array_nd_ref)
  | Objects (x y : array_nd_ref).

(** The call carried out on a memory. *)
Definition run (op : core_op) (m : mem) : outcome result * mem :=
  match op with
  | Op_subscript A w i => (Returns (Reference (subscript A w i)), m)
  | Op_paren A w i =>
      match paren A w i with
      | Elem p => (Returns (Reference p), m)
      | Sub s => (Returns (Object s), m)
      end
  | Op_at A w i =>
      match at_ A w i m with
      | (Returns p, m') => (Returns (Reference p), m')
      | (Throws_out_of_range, m') => (Throws_out_of_range, m')
      end
  | Op_get i A w => (Returns (Reference (get i A w)), m)
  | Op_size A => (Returns (Count (size A)), m)
  | Op_begin w => (Returns (Reference (begin_ w)), m)
  | Op_end A w => (Returns (Reference (end_ A w)), m)
  | Op_fill A w e => let '(w', m') := fill A w e m in (Returns (Object w'), m')
  | Op_assign A w rhs =>
      let '(w', m') := assign A w rhs m in (Returns (Object w'), m')
  | Op_swap_array A w b =>
      let '(w', m') := swap_array A w b m in (Returns (Object w'), m')
  | Op_swap_ref x y =>
      let '(x', y') := swap_ref x y in (Returns (Objects x' y'), m)
  | Op_swap_free x y =>
      let '(x', y') := swap_free x y in (Returns (Objects x' y'), m)
  | Op_eq A x y => (Returns (Truth (eq_ref A x y m)), m)
  | Op_ne A x y => (Returns (Truth (ne_ref A x y m)), m)
  | Op_lt A x y => (Returns (Truth (lt_ref A x y m)), m)
  | Op_gt A x y => (Returns (Truth (gt_ref A x y m)), m)
  | Op_le A x y => (Returns (Truth (le_ref A x y m)), m)
  | Op_ge A x y => (Returns (Truth (ge_ref A x y m)), m)
  end.

End Wrapper.

Arguments mem : clear implicits.
Arguments init_list : clear implicits.
Arguments core_op : clear implicits.

(** ** The sliding window of the test program *)

(** The test "sliding window array ref", up to the loop:
<<
    constexpr unsigned N = 2;
    int Ns[4][N]{};
    constexpr unsigned Ns_size = size(Ns);
    constexpr unsigned winmax = Ns_size - N + 1;

    for (unsigned i = 0; i < winmax; ++i)
    {
        array_nd_ref<int[N][N]> window{&Ns[i]};
        window.fill(i);
    }
>>
    [Ns] is the address of the array; [&Ns[i]] is the address of its row
    [i]. *)
Definition sliding_window (Ns : addr) (m : mem Z) : mem Z :=
  let N := 2 in
  let m0 := aggregate_init [4; N] (Init_braces []) Ns m in
  let Ns_size := 4 in
  let winmax := Ns_size - N + 1 in
  for_loop winmax 0
    (fun i m' =>
       let window := mk_ref (Ns + i * array_size [N]) in
       snd (fill [N; N] window (Z.of_nat i) m'))
    m0.

(** The braced list [{{0,0},{1,1},{2,2},{2,2}}] of the test. *)
Definition expected_windows : init_list Z :=
  Init_braces
    [Init_braces [Init_scalar 0%Z; Init_scalar 0%Z];
     Init_braces [Init_scalar 1%Z; Init_scalar 1%Z];
     Init_braces [Init_scalar 2%Z; Init_scalar 2%Z];
     Init_braces [Init_scalar 2%Z; Init_scalar 2%Z]].

(** The check of the test,
    [array_nd_ref{Ns}.operator==({{0,0},{1,1},{2,2},{2,2}})], with the
    temporary array of the argument at [tmp]. *)
Definition sliding_window_check (Ns tmp : addr) (m : mem Z) : bool :=
  let m1 := sliding_window Ns m in
  eq_array [4; 2] (bind Ns) tmp (aggregate_init [4; 2] expected_windows tmp m1).

Lemma array_size_cons (N : nat) (X : shape) :
  array_size (N :: X) = N * array_size X.
Proof. simpl. apply Nat.mul_comm. Qed.

(** ** Data of the examples *)

(** Two [bool[2][2]] side by side, the first all [false] and the second,
    from address 4 on, all [true]: the arrays [a] and [b] of the swap
    test. *)
Definition false_then_true : mem bool := fun q => 4 <=? q.

(** [bool b[2][2] {{0,1},{1,0}}] at address 0: the array of the copy-init
    test before [array_nd_ref{b} = {{1}}]. *)
Definition b_before : mem bool :=
  fun q => match q with 1 => true | 2 => true | _ => false end.

(** The braced list [{{1}}]. *)
Definition one_clause : init_list bool :=
  Init_braces [Init_braces [Init_scalar true]].

(** Two [int[2][2]], [{{1,2},{3,4}}] at address 0 and [{{1,2},{3,5}}] at
    address 4: they differ in the last scalar only. *)
Definition last_differs : mem Z :=
  fun q =>
    nth q [1; 2; 3; 4; 1; 2; 3; 5]%Z 0%Z.

(** ** Further members of the wrapper *)

Section Members.

Context {V : Type} `{Scalar V}.

(** [front() { return {a[0]}; }] *)
Definition front (A : shape) (this : array_nd_ref) : addr :=
  subscript A this 0.

(** [back() { return {a[extent-1]}; }] *)
Definition back (A : shape) (this : array_nd_ref) : addr :=
  subscript A this (extent A - 1).

(** [max_size() const noexcept { return extent; }] *)
Definition max_size (A : shape) : nat := extent A.

(** [empty() const noexcept { return false; }] *)
Definition empty (A : shape) : bool := false.

(** The const [data() const noexcept { return a; }] *)
Definition data (this : array_nd_ref) : addr := a this.

(** The free [size(array_nd_ref<A> a) { return a.size(); }] *)
Definition size_free (A : shape) (w : array_nd_ref) : nat := size A.

(** The built-in subscript [x[J]] of an array lvalue of type [X] at [p]. *)
Definition builtin_subscript (X : shape) (p : addr) (J : nat) : addr :=
  p + J * array_size (remove_extent X).

(** [x[j1][j2]...] by built-in subscripts, from an array lvalue of type
    [X] at [p]. *)
Fixpoint builtin_chain (X : shape) (p : addr) (idx : list nat) : addr :=
  match idx with
  | [] => p
  | j :: idx' =>
      builtin_chain (remove_extent X) (builtin_subscript X p j) idx'
  end.

(** [w[i1][i2]...]: [operator[]] of the wrapper, then built-in subscripts
    of the subarray it returns. *)
Definition subscript_chain (A : shape) (w : array_nd_ref) (idx : list nat)
    : addr :=
  match idx with
  | [] => a w
  | i :: idx' => builtin_chain (remove_extent A) (subscript A w i) idx'
  end.

(** [w(i1)(i2)...]: [operator()] of the wrapper and then of the wrappers
    it returns; applying it to the scalar it returns at rank 1 is
    ill-formed. *)
Fixpoint paren_chain (A : shape) (w : array_nd_ref) (idx : list nat)
    : option paren_result :=
  match idx with
  | [] => Some (Sub w)
  | i :: idx' =>
      match paren A w i with
      | Elem p =>
          match idx' with
          | [] => Some (Elem p)
          | _ :: _ => None
          end
      | Sub w' => paren_chain (remove_extent A) w' idx'
      end
  end.

(** ** Pointers and iterators *)








(** [array_nd_ref<X[N]> window{&big[i]}] for an array [big] of type
    [X[M]] at [p]: the constructor [array_nd_ref(pointer p) : a{p} {}] on
    the address of element [i]. *)
Definition window_at (X : shape) (M : nat) (p : addr) (i : nat)
    : array_nd_ref :=
  mk_ref (builtin_subscript (M :: X) p i).

(** ** The generic functions of the test program *)

(** The concept of the test program:
    [SquareArray = Rank<A> == 2 && Extent<A> == Extent<std::remove_extent_t<A>>]
    for a built-in array type [A]. *)
Definition SquareArray (A : shape) : bool :=
  (rank A =? 2) && (extent A =? extent (remove_extent A)).

(** [transpose(A& a)] of the test program, for the array at [p]:
<<
    for (size_t i=0; i != size(a); ++i)
        for (size_t j=i; j != size(a); ++j)
            std::swap( a[i][j], a[j][i]);
    return a;
>> *)
Definition transpose (A : shape) (p : addr) (m : mem V) : mem V :=
  for_loop (extent A) 0
    (fun i m1 =>
       for_loop (extent A - i) i
         (fun j m2 =>
            swap_value (remove_extent (remove_extent A))
              (builtin_chain A p [i; j]) (builtin_chain A p [j; i]) m2)
         m1)
    m.

(** The pairs [{r, c}] the loops of [transpose] have swapped when the outer
    loop is at row [i] and the inner loop at column [j]. *)
Definition swapped (i j r c : nat) : bool :=
  (Nat.min r c <? i) || ((Nat.min r c =? i) && (Nat.max r c <? j)).

(** The memory when the loops have swapped those pairs of the array at
    [p], starting from [m]. *)
Definition reached (N : nat) (p : addr) (m : mem V) (i j : nat) (m' : mem V)
    : Prop :=
  (forall r c, r < N -> c < N ->
     m' (p + r * N + c) =
     if swapped i j r c then m (p + c * N + r) else m (p + r * N + c)) /\
  (forall q, in_range p (N * N) q = false -> m' q = m q).

(** [trace(A const& a)] of the test program, with [add] for the [+=] of
    the scalars:
<<
    auto sum = a[0][0];
    for (size_t i=1; i < size(a); ++i)
        sum += a[i][i];
    return sum;
>> *)
Definition trace (add : V -> V -> V) (A : shape) (p : addr) (m : mem V) : V :=
  for_loop (extent A - 1) 1
    (fun i sum => add sum (m (builtin_chain A p [i; i])))
    (m (builtin_chain A p [0; 0])).

(** [array_nd_ref{b} == { ... }] through the member [operator==(A const&)],
    the temporary array of the argument at [tmp]. *)
Definition eq_init (A : shape) (this : array_nd_ref) (init : init_list V)
    (tmp : addr) (m : mem V) : bool :=
  eq_array A this tmp (aggregate_init A init tmp m).

End Members.

(** * Properties *)

(** ** Address ranges and loops *)

Lemma in_range_spec (p n q : addr) :
  reflect (p <= q < p + n) (in_range p n q).
Proof.
  unfold in_range. apply iff_reflect.
  rewrite andb_true_iff, Nat.leb_le, Nat.ltb_lt. reflexivity.
Qed.

Ltac range_cases :=
  repeat match goal with
    | |- context [in_range ?p ?n ?q] => destruct (in_range_spec p n q)
    | |- context [?q =? ?p] => destruct (Nat.eqb_spec q p)
    end;
  try reflexivity; try lia.

Lemma for_return_ext {R : Type} (n i : nat) (f g : nat -> option R) (r : R) :
  (forall j, i <= j < i + n -> f j = g j) ->
  for_return n i f r = for_return n i g r.
Proof.
  revert i; induction n as [|n IH]; intros i E; simpl; [reflexivity|].
  rewrite E by lia. destruct (g i); [reflexivity|].
  apply IH. intros; apply E; lia.
Qed.

(** A loop that leaves only by [return false], or falls through to
    [return true], answers whether no iteration returned. *)
Lemma for_return_all (c : nat -> bool) (n i : nat) :
  for_return n i (fun j => if c j then Some false else None) true = true
  <-> forall j, i <= j < i + n -> c j = false.
Proof.
  revert i; induction n as [|n IH]; intros i; simpl.
  - split; [intros _ j Hj; lia | reflexivity].
  - destruct (c i) eqn:Ci.
    + split; [discriminate|]. intros E. rewrite E in Ci by lia. discriminate.
    + rewrite IH. split; intros E j Hj.
      * destruct (Nat.eq_dec j i) as [->|]; [assumption | apply E; lia].
      * apply E; lia.
Qed.

Lemma mul_le_block (i n N sz : nat) : i + n <= N -> (i + n) * sz <= N * sz.
Proof. intros. now apply Nat.mul_le_mono_r. Qed.

Lemma mul_lt_block (j N sz : nat) : j < N -> j * sz + sz <= N * sz.
Proof.
  intros Hj. pose proof (mul_le_block j 1 sz (N := N)). lia.
Qed.

Section Memory.

Context {V : Type} `{Scalar V}.

Implicit Types (m : mem V) (p q r : addr) (A X : shape) (w : array_nd_ref).

Lemma store_eq m p v : store m p v p = v.
Proof. unfold store. now rewrite Nat.eqb_refl. Qed.

Lemma store_neq m p v q : q <> p -> store m p v q = m q.
Proof. unfold store. intros E. now destruct (Nat.eqb_spec q p). Qed.

Lemma a_paren_sub N X w i :
  a (paren_sub (N :: X) w i) = a w + i * array_size X.
Proof. reflexivity. Qed.

(** *** fill *)

Lemma fill_n_spec first n e m q :
  fill_n first n e m q = if in_range first n q then e else m q.
Proof.
  revert first m; induction n as [|n IH]; intros first m; simpl.
  - range_cases.
  - rewrite IH. unfold store. range_cases.
Qed.

Lemma for_loop_fill (body : nat -> mem V -> mem V) p sz e :
  (forall j m' q,
     body j m' q = if in_range (p + j * sz) sz q then e else m' q) ->
  forall n i m q,
    for_loop n i body m q =
    if in_range (p + i * sz) (n * sz) q then e else m q.
Proof.
  intros Hbody n; induction n as [|n IH]; intros i m q; simpl.
  - range_cases.
  - rewrite IH, Hbody. range_cases.
Qed.

Lemma fill_rank1 N w e m :
  fill [N] w e m = (w, fill_n (a w) N e m).
Proof. reflexivity. Qed.

Lemma fill_rank_gt1 N M X w e m :
  fill (N :: M :: X) w e m =
  (w, for_loop N 0
        (fun i m' => snd (fill (M :: X) (paren_sub (N :: M :: X) w i) e m'))
        m).
Proof. reflexivity. Qed.

(** [fill] writes [e] to every scalar of the array the wrapper refers to
    and to nothing else. *)
Lemma fill_spec A w e m q :
  A <> [] ->
  snd (fill A w e m) q = if in_range (a w) (array_size A) q then e else m q.
Proof.
  revert w m q; induction A as [|N X IH]; intros w m q NE; [congruence|].
  destruct X as [|M X'].
  - rewrite fill_rank1. cbn [snd]. rewrite fill_n_spec. simpl. range_cases.
  - rewrite fill_rank_gt1. cbn [snd].
    rewrite for_loop_fill with (p := a w) (sz := array_size (M :: X')) (e := e).
    + cbn [array_size]. range_cases.
    + intros j m' r. rewrite IH by discriminate. reflexivity.
Qed.

(** *** Deep assignment *)

Lemma copy_spec first n d m q :
  copy_safe d first n ->
  copy first n d m q = if in_range d n q then m (first + (q - d)) else m q.
Proof.
  unfold copy_safe.
  revert first d m; induction n as [|n IH]; intros first d m Hs; simpl.
  - range_cases.
  - rewrite IH by lia. unfold store.
    destruct (in_range_spec (S d) n q), (in_range_spec d (S n) q); try lia.
    + destruct (Nat.eqb_spec (S first + (q - S d)) d); [lia|].
      f_equal; lia.
    + destruct (Nat.eqb_spec q d); [f_equal; lia | lia].
    + destruct (Nat.eqb_spec q d); [lia | reflexivity].
Qed.

Lemma for_loop_copy (body : nat -> mem V -> mem V) p rhs sz N :
  (forall j m' q, j < N ->
     body j m' q =
     if in_range (p + j * sz) sz q
     then m' (rhs + j * sz + (q - (p + j * sz))) else m' q) ->
  copy_safe p rhs (N * sz) ->
  forall n i m q, i + n <= N ->
    for_loop n i body m q =
    if in_range (p + i * sz) (n * sz) q then m (rhs + (q - p)) else m q.
Proof.
  unfold copy_safe.
  intros Hbody Hs n; induction n as [|n IH]; intros i m q B; simpl.
  - range_cases.
  - pose proof (mul_le_block i (S n) sz B) as B'.
    rewrite IH by lia. rewrite !Hbody by lia.
    destruct (in_range_spec (p + S i * sz) (n * sz) q),
             (in_range_spec (p + i * sz) (sz + n * sz) q); try lia.
    + destruct (in_range_spec (p + i * sz) sz (rhs + (q - p))); [lia|].
      reflexivity.
    + destruct (in_range_spec (p + i * sz) sz q); [f_equal; lia | lia].
    + destruct (in_range_spec (p + i * sz) sz q); [lia | reflexivity].
Qed.

Lemma assign_rank1 N w rhs m :
  assign [N] w rhs m = (w, copy rhs N (a w) m).
Proof. reflexivity. Qed.

Lemma assign_rank_gt1 N M X w rhs m :
  assign (N :: M :: X) w rhs m =
  (w, for_loop N 0
        (fun i m' =>
           snd (assign (M :: X) (paren_sub (N :: M :: X) w i)
                  (rhs + i * array_size (M :: X)) m'))
        m).
Proof. reflexivity. Qed.

(** Deep assignment copies the source array, scalar by scalar, onto the
    array the wrapper refers to and writes nothing else. *)
Lemma assign_spec A w rhs m q :
  A <> [] ->
  copy_safe (a w) rhs (array_size A) ->
  snd (assign A w rhs m) q =
  if in_range (a w) (array_size A) q then m (rhs + (q - a w)) else m q.
Proof.
  revert w rhs m q; induction A as [|N X IH]; intros w rhs m q NE Hs;
    [congruence|].
  destruct X as [|M X'].
  - rewrite assign_rank1. cbn [snd]. simpl in Hs.
    rewrite copy_spec by (unfold copy_safe in *; lia). simpl. range_cases.
  - rewrite assign_rank_gt1. cbn [snd].
    rewrite (array_size_cons N (M :: X')) in *.
    rewrite for_loop_copy
      with (p := a w) (rhs := rhs) (sz := array_size (M :: X')) (N := N);
      [ | | exact Hs | lia].
    + range_cases.
    + intros j m' r Hj. rewrite IH; [ | discriminate | ].
      * rewrite a_paren_sub. reflexivity.
      * rewrite a_paren_sub.
        pose proof (mul_lt_block (array_size (M :: X')) Hj).
        unfold copy_safe in *. lia.
Qed.

(** *** Deep swap *)

Lemma for_loop_swap (body : nat -> mem V -> mem V) p q sz N :
  (forall j m' r, j < N ->
     body j m' r = exchanged (p + j * sz) (q + j * sz) sz m' r) ->
  same_or_apart p q (N * sz) ->
  forall n i m r, i + n <= N ->
    for_loop n i body m r =
    exchanged (p + i * sz) (q + i * sz) (n * sz) m r.
Proof.
  unfold same_or_apart, exchanged.
  intros Hbody Hs n; induction n as [|n IH]; intros i m r B; simpl.
  - range_cases.
  - pose proof (mul_le_block i (S n) sz B) as B'.
    rewrite IH by lia. rewrite !Hbody by lia.
    destruct (in_range_spec (p + S i * sz) (n * sz) r),
             (in_range_spec (q + S i * sz) (n * sz) r),
             (in_range_spec (p + i * sz) (sz + n * sz) r),
             (in_range_spec (q + i * sz) (sz + n * sz) r); try lia;
    repeat match goal with
      | |- context [in_range ?x ?y ?z] => destruct (in_range_spec x y z)
      end; try lia; try reflexivity; f_equal; lia.
Qed.

Lemma swap_value_array N X p q m :
  swap_value (N :: X) p q m = swap_ranges X p N q m.
Proof. reflexivity. Qed.

Lemma swap_ranges_spec_from X p q N m r :
  (forall p' q' m' r', same_or_apart p' q' (array_size X) ->
     swap_value X p' q' m' r' = exchanged p' q' (array_size X) m' r') ->
  same_or_apart p q (N * array_size X) ->
  swap_ranges X p N q m r = exchanged p q (N * array_size X) m r.
Proof.
  intros IH Hs. unfold swap_ranges.
  rewrite for_loop_swap with (p := p) (q := q) (sz := array_size X) (N := N);
    [ | | exact Hs | lia].
  - simpl. rewrite !Nat.add_0_r. reflexivity.
  - intros j m' r' Hj. apply IH.
    pose proof (mul_lt_block (array_size X) Hj).
    unfold same_or_apart in *. lia.
Qed.

(** [std::swap] of two objects of type [X] that are the same object or do
    not overlap exchanges their scalars and writes nothing else. *)
Lemma swap_value_spec X p q m r :
  same_or_apart p q (array_size X) ->
  swap_value X p q m r = exchanged p q (array_size X) m r.
Proof.
  revert p q m r; induction X as [|N X IH]; intros p q m r Hs.
  - simpl. unfold exchanged, store, same_or_apart in *. simpl in Hs.
    destruct (in_range_spec p 1 r), (in_range_spec q 1 r);
      destruct (Nat.eqb_spec r q), (Nat.eqb_spec r p);
      try lia; try reflexivity; f_equal; lia.
  - rewrite swap_value_array. rewrite (array_size_cons N X) in *.
    apply swap_ranges_spec_from; assumption.
Qed.

Lemma swap_ranges_spec X p q N m r :
  same_or_apart p q (N * array_size X) ->
  swap_ranges X p N q m r = exchanged p q (N * array_size X) m r.
Proof.
  intros Hs. apply swap_ranges_spec_from; [ | exact Hs].
  intros. now apply swap_value_spec.
Qed.

(** The member [swap(A& b)] exchanges the scalars of the referred-to array
    and of [b]. *)
Lemma swap_array_spec A w b m r :
  A <> [] ->
  same_or_apart (a w) b (array_size A) ->
  snd (swap_array A w b m) r = exchanged (a w) b (array_size A) m r.
Proof.
  destruct A as [|N X]; [congruence|]. intros _ Hs.
  unfold swap_array. rewrite array_size_cons in *.
  cbn [snd extent remove_extent]. now apply swap_ranges_spec.
Qed.

End Memory.

(** ** Row-major flattening and the comparisons *)

Section Compare.

Context {V : Type} `{Scalar V}.

Implicit Types (m : mem V) (p q r : addr) (A X : shape) (x y : array_nd_ref).
Implicit Types (u v : list V).

Lemma flatten_cons N X p m :
  flatten (N :: X) p m =
  flat_map (fun i => flatten X (p + i * array_size X) m) (seq 0 N).
Proof. reflexivity. Qed.

Lemma flat_map_blocks m p sz n i :
  flat_map (fun j => map m (seq (p + j * sz) sz)) (seq i n) =
  map m (seq (p + i * sz) (n * sz)).
Proof.
  revert i; induction n as [|n IH]; intros i; simpl; [reflexivity|].
  rewrite IH, seq_app, map_app. do 3 f_equal. lia.
Qed.

(** The flattening is the run of [array_size A] scalars from [p] on. *)
Lemma flatten_contiguous A p m :
  flatten A p m = map m (seq p (array_size A)).
Proof.
  revert p; induction A as [|N X IH]; intros p; [reflexivity|].
  cbn [flatten]. rewrite array_size_cons.
  rewrite (flat_map_ext _ (fun j => map m (seq (p + j * array_size X)
                                             (array_size X)))).
  - rewrite flat_map_blocks. f_equal. f_equal. lia.
  - intros j. apply IH.
Qed.

Lemma length_flatten A p m : length (flatten A p m) = array_size A.
Proof. rewrite flatten_contiguous. now rewrite length_map, length_seq. Qed.

Lemma nth_error_flatten A p m k :
  k < array_size A -> nth_error (flatten A p m) k = Some (m (p + k)).
Proof.
  intros Hk. rewrite flatten_contiguous.
  rewrite nth_error_map, nth_error_seq.
  destruct (Nat.ltb_spec k (array_size A)); [reflexivity | lia].
Qed.

(** *** Equality *)

Lemma eq_ref_rank1 N x y m :
  eq_ref [N] x y m =
  for_return N 0
    (fun i => if nev (m (paren_elem [N] x i)) (m (paren_elem [N] y i))
              then Some false else None)
    true.
Proof. reflexivity. Qed.

Lemma eq_ref_rank_gt1 N M X x y m :
  eq_ref (N :: M :: X) x y m =
  for_return N 0
    (fun i =>
       if negb (eq_ref (M :: X) (paren_sub (N :: M :: X) x i)
                                (paren_sub (N :: M :: X) y i) m)
       then Some false else None)
    true.
Proof. reflexivity. Qed.

(** A statement about every scalar of [N] blocks of [sz] scalars is a
    statement about every scalar of every block. *)
Lemma forall_blocks (P : nat -> Prop) (N sz : nat) :
  (forall k, k < N * sz -> P k) <->
  (forall j, 0 <= j < 0 + N -> forall k, k < sz -> P (j * sz + k)).
Proof.
  split.
  - intros E j Hj k Hk. apply E.
    pose proof (@mul_lt_block j N sz). lia.
  - intros E k Hk.
    assert (sz <> 0) by (intros ->; lia).
    rewrite (Nat.div_mod_eq k sz), (Nat.mul_comm sz).
    apply E.
    + split; [lia|]. apply Nat.Div0.div_lt_upper_bound. lia.
    + now apply Nat.mod_upper_bound.
Qed.

(** [operator==] holds exactly when every scalar of [x] compares equal
    with the scalar of [y] at the same place. *)
Lemma eq_ref_spec A x y m :
  A <> [] ->
  eq_ref A x y m = true <->
  forall k, k < array_size A -> eqv (m (a x + k)) (m (a y + k)) = true.
Proof.
  revert x y; induction A as [|N X IH]; intros x y NE; [congruence|].
  destruct X as [|M X'].
  - rewrite eq_ref_rank1, for_return_all. simpl.
    split; intros E k Hk.
    + specialize (E k). unfold paren_elem, subscript in E. simpl in E.
      rewrite nev_eqv, !Nat.mul_1_r in E.
      apply negb_false_iff. apply E. lia.
    + unfold paren_elem, subscript. simpl.
      rewrite nev_eqv, !Nat.mul_1_r. apply negb_false_iff. apply E. lia.
  - rewrite eq_ref_rank_gt1, for_return_all.
    rewrite (array_size_cons N (M :: X')).
    rewrite (forall_blocks
               (fun k => eqv (m (a x + k)) (m (a y + k)) = true)).
    split; intros E j Hj.
    + specialize (E j Hj). apply negb_false_iff in E.
      rewrite IH in E by discriminate.
      intros k Hk. specialize (E k Hk). rewrite !a_paren_sub in E.
      now rewrite !Nat.add_assoc.
    + apply negb_false_iff. apply IH; [discriminate|].
      intros k Hk. rewrite !a_paren_sub, <- !Nat.add_assoc. now apply E.
Qed.

(** *** Ordering *)

Lemma first_diff_both u v :
  (if decides_less (first_diff u v) then Some true
   else if decides_less (first_diff v u) then Some false
   else None) = first_diff u v.
Proof.
  revert v; induction u as [|s u IH]; intros [|t v]; simpl; try reflexivity.
  destruct (ltv s t) eqn:E1; [reflexivity|].
  destruct (ltv t s) eqn:E2; [reflexivity|].
  apply IH.
Qed.

Lemma first_diff_app u1 v1 u2 v2 :
  length u1 = length v1 ->
  first_diff (u1 ++ u2) (v1 ++ v2) =
  match first_diff u1 v1 with
  | Some b => Some b
  | None => first_diff u2 v2
  end.
Proof.
  revert v1; induction u1 as [|s u1 IH]; intros [|t v1] L; simpl in *;
    try discriminate.
  - now destruct (first_diff u2 v2).
  - destruct (ltv s t); [reflexivity|].
    destruct (ltv t s); [reflexivity|].
    apply IH. congruence.
Qed.

Lemma lexicographical_compare_first_diff p q n m :
  lexicographical_compare p n q n m =
  decides_less (first_diff (map m (seq p n)) (map m (seq q n))).
Proof.
  revert p q; induction n as [|n IH]; intros p q; simpl; [reflexivity|].
  destruct (ltv (m p) (m q)); [reflexivity|].
  destruct (ltv (m q) (m p)); [reflexivity|].
  apply IH.
Qed.

(** A loop whose iterations return the first decision of blockwise
    comparisons decides the concatenation. *)
Lemma for_return_first_diff (f g : nat -> list V) n i :
  (forall j, length (f j) = length (g j)) ->
  for_return n i (fun j => first_diff (f j) (g j)) false =
  decides_less (first_diff (flat_map f (seq i n)) (flat_map g (seq i n))).
Proof.
  intros L. revert i; induction n as [|n IH]; intros i; simpl;
    [reflexivity|].
  rewrite first_diff_app by apply L.
  destruct (first_diff (f i) (g i)) as [[|]|]; try reflexivity.
  apply IH.
Qed.

Lemma lt_ref_rank1 N x y m :
  lt_ref [N] x y m = lexicographical_compare (begin_ x) N (begin_ y) N m.
Proof. reflexivity. Qed.

Lemma lt_ref_rank_gt1 N M X x y m :
  lt_ref (N :: M :: X) x y m =
  for_return N 0
    (fun i =>
       if lt_ref (M :: X) (paren_sub (N :: M :: X) x i)
                          (paren_sub (N :: M :: X) y i) m
       then Some true
       else if gt_ref (M :: X) (paren_sub (N :: M :: X) x i)
                               (paren_sub (N :: M :: X) y i) m
       then Some false
       else None)
    false.
Proof. reflexivity. Qed.

(** [operator<] is [std::lexicographical_compare] of the two
    flattenings, whatever the relation [<] of the scalars. *)
Lemma lt_ref_flatten A x y m :
  A <> [] ->
  lt_ref A x y m =
  decides_less (first_diff (flatten A (a x) m) (flatten A (a y) m)).
Proof.
  revert x y; induction A as [|N X IH]; intros x y NE; [congruence|].
  destruct X as [|M X'].
  - rewrite lt_ref_rank1, lexicographical_compare_first_diff.
    rewrite !flatten_contiguous. simpl. rewrite Nat.add_0_r. reflexivity.
  - rewrite lt_ref_rank_gt1. rewrite !(flatten_cons N (M :: X')).
    rewrite <- for_return_first_diff
      by (intros; cbv beta; now rewrite !length_flatten).
    apply for_return_ext. intros j _. unfold gt_ref.
    rewrite !IH by discriminate. rewrite !a_paren_sub.
    apply first_diff_both.
Qed.

Section StrictTotalOrder.

(** [<] on the scalars is a strict total order, as it is on the
    integers, characters and booleans. *)
Hypothesis ltv_irrefl : forall s : V, ltv s s = false.
Hypothesis ltv_total : forall s t : V, ltv s t = false -> ltv t s = false -> s = t.

Lemma first_diff_none u v :
  length u = length v -> (first_diff u v = None <-> u = v).
Proof.
  revert v; induction u as [|s u IH]; intros [|t v] L; simpl in *;
    try discriminate.
  - tauto.
  - destruct (ltv s t) eqn:E1.
    + split; [discriminate|]. intros E; injection E as -> _.
      rewrite ltv_irrefl in E1. discriminate.
    + destruct (ltv t s) eqn:E2.
      * split; [discriminate|]. intros E; injection E as -> _.
        rewrite ltv_irrefl in E2. discriminate.
      * rewrite IH by congruence. rewrite (ltv_total s t E1 E2).
        split; [congruence|]. intros E; now injection E.
Qed.

Lemma first_diff_lex_less u v :
  length u = length v ->
  (first_diff u v = Some true <-> lex_less u v).
Proof.
  revert v; induction u as [|s u IH]; intros [|t v] L; simpl in *;
    try discriminate.
  - split; [discriminate|].
    intros [(k & s & t & E & _) | (t & w & E)]; [now destruct k | discriminate].
  - destruct (ltv s t) eqn:E1.
    + split; [intros _ | reflexivity].
      left. exists 0, s, t. now repeat split.
    + assert (R : lex_less (s :: u) (t :: v) <-> s = t /\ lex_less u v).
      { split.
        - intros [(k & s' & t' & Eu & Ev & Ef & El) | (t' & w & E)].
          + destruct k as [|k]; simpl in *.
            * injection Eu as ->. injection Ev as ->. congruence.
            * injection Ef as -> Ef. split; [reflexivity|].
              left. exists k, s', t'. now repeat split.
          + exfalso. apply (f_equal (@length V)) in E.
            simpl in E. rewrite length_app in E. simpl in E. lia.
        - intros [-> [(k & s' & t' & Eu & Ev & Ef & El) | (t' & w & E)]].
          + left. exists (S k), s', t'. simpl. repeat split; congruence.
          + right. exists t', w. simpl. congruence. }
      rewrite R. destruct (ltv t s) eqn:E2.
      * split; [discriminate|]. intros [-> _].
        rewrite ltv_irrefl in E2. discriminate.
      * rewrite IH by congruence. pose proof (ltv_total s t E1 E2). tauto.
Qed.

End StrictTotalOrder.

(** A loop that leaves by its first [return] returns [true] exactly when
    some iteration returns [true] after iterations that all fell
    through. *)
Lemma for_return_first (body : nat -> option bool) n i :
  for_return n i body false = true <->
  exists k, i <= k < i + n /\ body k = Some true /\
            forall j, i <= j < k -> body j = None.
Proof.
  revert i; induction n as [|n IH]; intros i; simpl.
  - split; [discriminate | intros (k & Hk & _); lia].
  - destruct (body i) as [b|] eqn:Bi.
    + split.
      * intros ->. exists i. repeat split; try lia. assumption.
      * intros (k & Hk & Bk & Bj).
        destruct (Nat.eq_dec k i) as [->|]; [congruence|].
        rewrite Bj in Bi by lia. discriminate.
    + rewrite IH. split; intros (k & Hk & Bk & Bj).
      * exists k. repeat split; try lia; [assumption|].
        intros j Hj. destruct (Nat.eq_dec j i) as [->|];
          [assumption | apply Bj; lia].
      * destruct (Nat.eq_dec k i) as [->|]; [congruence|].
        exists k. repeat split; try lia; [assumption|].
        intros j Hj. apply Bj; lia.
Qed.

End Compare.

(** ** Handles: shallow swap and the deep mutators *)

Section Handles.

Context {V : Type} `{Scalar V}.

Implicit Types (m : mem V) (A : shape) (w x y : array_nd_ref).

Lemma requires_array_nonempty A : requires_array A = true -> A <> [].
Proof. intros E ->. discriminate. Qed.

(** C1, on the code: the member [swap] taking a wrapper and the
    free [swap] over two wrappers receive their wrapper arguments by value.
    After [x.swap(y)] the handle of [x] is the one [y] had, but [y] keeps
    its own handle; after [swap(x, y)] both wrappers keep their handles.
    Neither writes to the referred-to storage.  For wrappers with the
    handles 0 and 1, [y] does not end with the handle of [x] in either
    call, and [x] gets the handle of [y] in the first only. *)
Theorem swap_of_wrappers_by_value :
  (forall x y m,
     a (fst (swap_ref x y)) = a y /\ a (snd (swap_ref x y)) = a y /\
     a (fst (swap_free x y)) = a x /\ a (snd (swap_free x y)) = a y /\
     snd (run (Op_swap_ref x y) m) = m /\
     snd (run (Op_swap_free x y) m) = m) /\
  a (snd (swap_ref (mk_ref 0) (mk_ref 1))) <> a (mk_ref 0) /\
  a (snd (swap_free (mk_ref 0) (mk_ref 1))) <> a (mk_ref 0) /\
  a (fst (swap_free (mk_ref 0) (mk_ref 1))) <> a (mk_ref 1).
Proof.
  split; [intros x y m; repeat split|].
  repeat split; discriminate.
Qed.

(** C9: fill, deep assignment and deep swap return the object with the
    handle it had, whatever the array type, the arguments and the memory;
    the shallow swap is the operation that gives the object another
    handle. *)
Theorem deep_mutators_keep_handle A w (e : V) (rhs b : addr) m :
  a (fst (fill A w e m)) = a w /\
  a (fst (assign A w rhs m)) = a w /\
  a (fst (swap_array A w b m)) = a w /\
  forall y, a (fst (swap_ref w y)) = a y.
Proof.
  repeat split; destruct A as [|N [|M X]]; reflexivity.
Qed.

(** C7: deep assignment of a wrapper from the array it refers to and deep
    swap of a wrapper with the array it refers to leave every scalar of
    the memory as it was; the shallow swap of a wrapper with itself leaves
    its handle as it was. *)
Theorem self_operations_are_no_ops A w m :
  (forall q, snd (assign A w (a w) m) q = m q) /\
  (forall q, snd (swap_array A w (a w) m) q = m q) /\
  a (fst (swap_ref w w)) = a w /\
  a (fst (swap_free w w)) = a w.
Proof.
  destruct A as [|N X]; [repeat split|].
  repeat split; intros.
  - rewrite assign_spec; [ | discriminate | left; lia].
    destruct (in_range_spec (a w) (array_size (N :: X)) q);
      [f_equal; lia | reflexivity].
  - rewrite swap_array_spec; [ | discriminate | now left].
    unfold exchanged.
    destruct (in_range_spec (a w) (array_size (N :: X)) q);
      [f_equal; lia | reflexivity].
Qed.

(** C5: the member [swap] taking an array exchanges, scalar by scalar, the
    array the wrapper refers to and a distinct array [b] of the same type,
    and writes nowhere else. *)
Theorem deep_swap_exchanges A w (b : addr) m :
  requires_array A = true ->
  a w + array_size A <= b \/ b + array_size A <= a w ->
  let m' := snd (swap_array A w b m) in
  (forall k, k < array_size A ->
     m' (a w + k) = m (b + k) /\ m' (b + k) = m (a w + k)) /\
  (forall q, in_range (a w) (array_size A) q = false ->
             in_range b (array_size A) q = false -> m' q = m q).
Proof.
  intros R D m'. apply requires_array_nonempty in R.
  assert (E : forall r,
             m' r = exchanged (a w) b (array_size A) m r).
  { intros r. apply swap_array_spec; [assumption|].
    unfold same_or_apart. tauto. }
  split.
  - intros k Hk. rewrite !E. unfold exchanged.
    destruct (in_range_spec (a w) (array_size A) (a w + k)); [|lia].
    destruct (in_range_spec (a w) (array_size A) (b + k)); [lia|].
    destruct (in_range_spec b (array_size A) (b + k)); [|lia].
    split; f_equal; lia.
  - intros q Q1 Q2. rewrite E. unfold exchanged. now rewrite Q1, Q2.
Qed.

(** C6: [at(I)] throws exactly when [I] is not below the outermost extent;
    below it, it returns the reference to element [I]; it never writes;
    and of all the operations it is the only one that throws. *)
Theorem at_is_the_only_check A w (i : nat) m :
  (fst (at_ A w i m) = Throws_out_of_range <-> extent A <= i) /\
  (i < extent A ->
   fst (at_ A w i m) =
   Returns (a w + i * array_size (remove_extent A))) /\
  snd (at_ A w i m) = m /\
  (forall op m',
     fst (run op m') = Throws_out_of_range <->
     exists A' w' i', op = Op_at A' w' i' /\ extent A' <= i').
Proof.
  unfold at_. repeat split.
  - destruct (Nat.leb_spec (extent A) i); [trivial | discriminate].
  - intros L. destruct (Nat.leb_spec (extent A) i); [reflexivity | lia].
  - intros L. destruct (Nat.leb_spec (extent A) i); [lia | reflexivity].
  - now destruct (extent A <=? i).
  - destruct op; simpl;
      repeat match goal with
        | |- context [paren ?B ?u ?j] => destruct (paren B u j)
        | |- context [fill ?B ?u ?e ?n] => destruct (fill B u e n)
        | |- context [assign ?B ?u ?r ?n] => destruct (assign B u r n)
        end; simpl; try discriminate.
    match goal with
    | |- context [at_ ?B ?u ?j ?n] =>
        unfold at_; destruct (Nat.leb_spec (extent B) j); simpl;
        [intros _; now exists B, u, j | discriminate]
    end.
  - intros (A' & w' & i' & -> & L). simpl. unfold at_.
    destruct (Nat.leb_spec (extent A') i'); [reflexivity | lia].
Qed.

(** C10: for an index below the outermost extent, [w[i]], [w(i)],
    [w.at(i)] and [get<i>(w)] designate one address, that of element [i];
    [w(i)] is the element for rank 1 and a wrapper with that handle for a
    higher rank; so a scalar written through one access is read through
    any other. *)
Theorem access_paths_agree A w (i : nat) m :
  i < extent A ->
  (forall path, designated path A w i m = Some (subscript A w i)) /\
  paren A w i =
    (if rank A =? 1 then Elem (subscript A w i)
     else Sub (mk_ref (subscript A w i))) /\
  (forall path1 path2 p1 p2 k (v : V),
     designated path1 A w i m = Some p1 ->
     designated path2 A w i m = Some p2 ->
     store m (p1 + k) v (p2 + k) = v).
Proof.
  intros L.
  assert (D : forall path, designated path A w i m = Some (subscript A w i)).
  { intros [| | |]; unfold designated, paren, at_, get_requires, get.
    - reflexivity.
    - now destruct (rank A =? 1).
    - destruct (Nat.leb_spec (extent A) i); [lia | reflexivity].
    - destruct (Nat.ltb_spec i (extent A)); [reflexivity | lia]. }
  repeat split.
  - exact D.
  - intros path1 path2 p1 p2 k v E1 E2.
    rewrite D in E1, E2. injection E1 as <-. injection E2 as <-.
    apply store_eq.
Qed.

End Handles.

(** ** Equality and ordering of wrappers *)

Section Comparisons.

Context {V : Type} `{Scalar V}.

Implicit Types (m : mem V) (A : shape) (x y : array_nd_ref).

(** The decision an iteration of the loop of [operator<] takes on a pair
    of subarrays is the first difference of their flattenings. *)
Lemma sub_compare_first_diff A x y m :
  A <> [] ->
  (if lt_ref A x y m then Some true
   else if gt_ref A x y m then Some false
   else None) =
  first_diff (flatten A (a x) m) (flatten A (a y) m).
Proof.
  intros NE. unfold gt_ref. rewrite !lt_ref_flatten by assumption.
  apply first_diff_both.
Qed.

(** C4: two wrappers over the same array type, or a wrapper and an array of
    that type, are equal exactly when every scalar of the one compares
    equal with the scalar of the other at the same place.  In particular,
    when [==] on the scalars is reflexive: two distinct arrays that differ
    in the one scalar [k0] compare unequal, and equal once that scalar of
    the second is set to that of the first. *)
Theorem equality_is_elementwise A x y m :
  requires_array A = true ->
  (eq_ref A x y m = true <->
   forall k, k < array_size A -> eqv (m (a x + k)) (m (a y + k)) = true) /\
  (forall b : addr,
     eq_array A x b m = true <->
     forall k, k < array_size A -> eqv (m (a x + k)) (m (b + k)) = true) /\
  (forall k0,
     (forall v : V, eqv v v = true) ->
     a x + array_size A <= a y \/ a y + array_size A <= a x ->
     k0 < array_size A ->
     (forall k, k < array_size A -> k <> k0 ->
        eqv (m (a x + k)) (m (a y + k)) = true) ->
     eqv (m (a x + k0)) (m (a y + k0)) = false ->
     eq_ref A x y m = false /\
     eq_ref A x y (store m (a y + k0) (m (a x + k0))) = true).
Proof.
  intros R. apply requires_array_nonempty in R.
  split; [now apply eq_ref_spec|].
  split; [intros b; unfold eq_array; now apply eq_ref_spec|].
  intros k0 Refl D Hk0 Same Diff. split.
  - apply not_true_is_false. intros E.
    rewrite (eq_ref_spec x y m R) in E.
    rewrite E in Diff by assumption. discriminate.
  - apply eq_ref_spec; [assumption|]. intros k Hk.
    rewrite (store_neq m _ (q := a x + k)) by lia.
    destruct (Nat.eq_dec k k0) as [->|NE].
    + rewrite store_eq. apply Refl.
    + rewrite store_neq by lia. now apply Same.
Qed.

(** C3: [x < y] is [std::lexicographical_compare] of the row-major
    flattenings of [x] and [y], whatever [<] on the scalars is.  When that
    is a strict total order, [x < y] holds exactly when the flattening of
    [x] is lexicographically less than that of [y]; and for rank above 1
    exactly when, at the first index whose two subarrays are not equal,
    the subarray of [x] is less than that of [y]. *)
Theorem ordering_is_lexicographic A x y m :
  requires_array A = true ->
  lt_ref A x y m =
    decides_less (first_diff (flatten A (a x) m) (flatten A (a y) m)) /\
  ((forall s : V, ltv s s = false) ->
   (forall s t : V, ltv s t = false -> ltv t s = false -> s = t) ->
   (lt_ref A x y m = true <->
    lex_less (flatten A (a x) m) (flatten A (a y) m)) /\
   (1 < rank A ->
    (lt_ref A x y m = true <->
     exists i, i < extent A /\
       (forall j, j < i ->
          flatten (remove_extent A) (a (paren_sub A x j)) m =
          flatten (remove_extent A) (a (paren_sub A y j)) m) /\
       lt_ref (remove_extent A) (paren_sub A x i) (paren_sub A y i) m
       = true))).
Proof.
  intros R. apply requires_array_nonempty in R.
  split; [now apply lt_ref_flatten|].
  intros Irr Tot. split.
  - rewrite lt_ref_flatten by assumption.
    rewrite <- (first_diff_lex_less Irr Tot)
      by now rewrite !length_flatten.
    destruct (first_diff _ _) as [[|]|]; simpl;
      split; congruence.
  - intros L1. destruct A as [|N [|M X]]; try (simpl in L1; lia). clear L1.
    cbn [extent remove_extent].
    rewrite lt_ref_rank_gt1, for_return_first.
    assert (B : forall j,
      (if lt_ref (M :: X) (paren_sub (N :: M :: X) x j)
                 (paren_sub (N :: M :: X) y j) m
       then Some true
       else if gt_ref (M :: X) (paren_sub (N :: M :: X) x j)
                      (paren_sub (N :: M :: X) y j) m
       then Some false else None) =
      first_diff (flatten (M :: X) (a (paren_sub (N :: M :: X) x j)) m)
                 (flatten (M :: X) (a (paren_sub (N :: M :: X) y j)) m)).
    { intros j. now apply sub_compare_first_diff. }
    assert (L : forall j,
      lt_ref (M :: X) (paren_sub (N :: M :: X) x j)
             (paren_sub (N :: M :: X) y j) m = true <->
      first_diff (flatten (M :: X) (a (paren_sub (N :: M :: X) x j)) m)
                 (flatten (M :: X) (a (paren_sub (N :: M :: X) y j)) m)
      = Some true).
    { intros j. rewrite lt_ref_flatten by discriminate.
      destruct (first_diff _ _) as [[|]|]; simpl; split; congruence. }
    split.
    + intros (k & Hk & Bk & Bj). exists k. split; [lia|]. split.
      * intros j Hj. apply (first_diff_none Irr Tot).
        -- now rewrite !length_flatten.
        -- rewrite <- B. apply Bj. lia.
      * apply L. rewrite <- B. exact Bk.
    + intros (k & Hk & Ej & Lk). exists k. split; [lia|]. split.
      * rewrite B. now apply L.
      * intros j Hj. rewrite B.
        apply (first_diff_none Irr Tot).
        -- now rewrite !length_flatten.
        -- apply Ej. lia.
Qed.

End Comparisons.

(** ** Assignment from a braced list *)

Section BracedLists.

Context {V : Type} `{Scalar V}.

Implicit Types (m : mem V) (A X : shape) (w : array_nd_ref).
Implicit Types (init : init_list V) (idx : list nat).

Lemma offset_lt A idx :
  valid_index A idx = true -> offset A idx < array_size A.
Proof.
  revert idx; induction A as [|N X IH]; intros [|i idx] E; simpl in *;
    try discriminate; [lia|].
  apply andb_true_iff in E as [Hi E]. apply Nat.ltb_lt in Hi.
  specialize (IH idx E). pose proof (mul_lt_block (array_size X) Hi). lia.
Qed.

(** A loop whose iterations leave [q] alone leaves [q] alone. *)
Lemma for_loop_frame (body : nat -> mem V -> mem V) (q : addr) n i m :
  (forall j m', i <= j < i + n -> body j m' q = m' q) ->
  for_loop n i body m q = m q.
Proof.
  revert i m; induction n as [|n IH]; intros i m F; simpl; [reflexivity|].
  rewrite IH by (intros; apply F; lia). apply F. lia.
Qed.

Lemma block_apart (p sz i j q : nat) :
  in_range (p + i * sz) sz q = true -> j <> i ->
  in_range (p + j * sz) sz q = false.
Proof.
  intros Q NE.
  destruct (in_range_spec (p + i * sz) sz q); [|discriminate].
  destruct (in_range_spec (p + j * sz) sz q); [|reflexivity].
  exfalso. destruct (Nat.lt_total i j) as [L|[L|L]]; [ | lia | ].
  - pose proof (Nat.mul_le_mono_r (S i) j sz L). lia.
  - pose proof (Nat.mul_le_mono_r (S j) i sz L). lia.
Qed.

(** What a loop over the blocks of an array leaves at a place of block
    [i] is what iteration [i] writes there. *)
Lemma for_loop_at (body : nat -> mem V -> mem V) (p sz i q : nat) (v : V) :
  in_range (p + i * sz) sz q = true ->
  (forall j m', in_range (p + j * sz) sz q = false -> body j m' q = m' q) ->
  (forall m', body i m' q = v) ->
  forall n i0 m, i0 <= i < i0 + n -> for_loop n i0 body m q = v.
Proof.
  intros Q F E n; induction n as [|n IH]; intros i0 m B; simpl; [lia|].
  destruct (Nat.eq_dec i0 i) as [->|NE].
  - rewrite for_loop_frame; [apply E|].
    intros j m' Hj. apply F. eapply block_apart; [exact Q | lia].
  - apply IH. lia.
Qed.

Lemma aggregate_init_cons N X l (p : addr) m :
  aggregate_init (N :: X) (Init_braces l) p m =
  for_loop N 0
    (fun i m' =>
       aggregate_init X (nth i l (Init_braces [])) (p + i * array_size X) m')
    m.
Proof. reflexivity. Qed.

(** Initialisation writes inside the object only. *)
Lemma aggregate_init_frame A init (p q : addr) m :
  in_range p (array_size A) q = false -> aggregate_init A init p m q = m q.
Proof.
  revert init p m; induction A as [|N X IH]; intros init p m Q.
  - destruct (in_range_spec p (array_size []) q); [discriminate|].
    simpl in *. destruct init as [v|[|e l]]; try reflexivity;
      apply store_neq; lia.
  - destruct init as [v|l]; [reflexivity|].
    rewrite aggregate_init_cons. apply for_loop_frame.
    intros j m' Hj. apply IH.
    rewrite array_size_cons in Q.
    destruct (in_range_spec p (N * array_size X) q); [discriminate|].
    destruct (in_range_spec (p + j * array_size X) (array_size X) q);
      [|reflexivity].
    exfalso. assert (Hj' : j < N) by lia.
    pose proof (mul_lt_block (array_size X) Hj'). lia.
Qed.

Lemma well_formed_empty X : well_formed_init X (Init_braces (V := V) []) = true.
Proof. destruct X; reflexivity. Qed.

Lemma specified_empty idx : specified idx (Init_braces (V := V) []) = None.
Proof. destruct idx as [|[|i] idx]; reflexivity. Qed.

(** The scalar at a multi-index of an initialised object holds the value
    of its clause, or zero when the braced list has no clause for it. *)
Lemma aggregate_init_spec A init (p : addr) m idx :
  well_formed_init A init = true ->
  valid_index A idx = true ->
  aggregate_init A init p m (p + offset A idx) =
  match specified idx init with
  | Some v => v
  | None => zero
  end.
Proof.
  revert init p m idx; induction A as [|N X IH]; intros init p m idx W I.
  - destruct idx; [|discriminate]. simpl. rewrite Nat.add_0_r.
    destruct init as [v|[|e l]]; try discriminate; apply store_eq.
  - destruct idx as [|i idx]; [discriminate|].
    destruct init as [v|l]; [discriminate|].
    simpl in W, I.
    apply andb_true_iff in W as [_ W]. apply andb_true_iff in I as [Hi I].
    apply Nat.ltb_lt in Hi.
    rewrite aggregate_init_cons.
    assert (Q : in_range (p + i * array_size X) (array_size X)
                  (p + offset (N :: X) (i :: idx)) = true).
    { pose proof (offset_lt X idx I). simpl.
      destruct (in_range_spec (p + i * array_size X) (array_size X)
                  (p + (i * array_size X + offset X idx)));
        [reflexivity | lia]. }
    apply for_loop_at with (p := p) (sz := array_size X) (i := i);
      [exact Q | | | lia].
    + intros j m' F. now apply aggregate_init_frame.
    + intros m'. simpl offset. rewrite Nat.add_assoc. simpl specified.
      destruct (nth_error l i) as [e|] eqn:E.
      * rewrite (nth_error_nth _ _ _ E). apply IH; [|assumption].
        rewrite forallb_forall in W. apply W.
        now apply nth_error_In with i.
      * apply nth_error_None in E. rewrite nth_overflow by assumption.
        rewrite IH by (apply well_formed_empty || assumption).
        now rewrite specified_empty.
Qed.

(** C2, amended: after assignment from a braced list, every
    scalar of the referred-to array holds the value of its clause, and
    zero when the list has no clause for it, whatever it held before. *)
Theorem assign_from_braced_list A w init (tmp : addr) m idx :
  requires_array A = true ->
  well_formed_init A init = true ->
  valid_index A idx = true ->
  a w + array_size A <= tmp \/ tmp + array_size A <= a w ->
  snd (assign_init A w init tmp m) (a w + offset A idx) =
  match specified idx init with
  | Some v => v
  | None => zero
  end.
Proof.
  intros R W I D. apply requires_array_nonempty in R.
  pose proof (offset_lt A idx I) as L.
  unfold assign_init.
  rewrite assign_spec by (assumption || (unfold copy_safe; lia)).
  destruct (in_range_spec (a w) (array_size A) (a w + offset A idx)); [|lia].
  replace (tmp + (a w + offset A idx - a w)) with (tmp + offset A idx) by lia.
  now apply aggregate_init_spec.
Qed.

End BracedLists.

(** C2, counterexample, from the copy-init test of the test program: with
    [b] holding [{{0,1},{1,0}}], [array_nd_ref{b} = {{1}}] has no clause
    for [b[0][1]], which held 1, and leaves 0 there. *)
Lemma partial_literal_overwrites :
  specified [0; 1] one_clause = None /\
  b_before (0 + offset [2; 2] [0; 1]) = true /\
  snd (assign_init [2; 2] (bind 0) one_clause 4 b_before)
    (0 + offset [2; 2] [0; 1]) = false /\
  snd (assign_init [2; 2] (bind 0) one_clause 4 b_before)
    (0 + offset [2; 2] [0; 1]) <> b_before (0 + offset [2; 2] [0; 1]).
Proof. vm_compute. repeat split. discriminate. Qed.

(** ** The sliding window *)

(** The scalar [k] of [Ns] after the loop of the sliding-window test. *)
Lemma sliding_window_at (Ns : addr) (m : mem Z) (k : nat) :
  k < 8 ->
  sliding_window Ns m (Ns + k) = nth k [0; 0; 1; 1; 2; 2; 2; 2]%Z 0%Z.
Proof.
  intros Hk. unfold sliding_window.
  cbn [for_loop Nat.sub Nat.add array_size Nat.mul].
  rewrite !fill_spec by discriminate.
  cbn [a array_size Nat.mul Nat.add Z.of_nat Pos.of_succ_nat Pos.succ].
  do 8 (destruct k as [|k]; [cbn [nth]; range_cases|]). lia.
Qed.

(** C8: after the loop of the sliding-window test the array [Ns] holds
    [{{0,0},{1,1},{2,2},{2,2}}], wherever [Ns] is and whatever the memory
    held before. *)
Theorem sliding_window_fill (Ns : addr) (m : mem Z) :
  flatten [4; 2] Ns (sliding_window Ns m) = [0; 0; 1; 1; 2; 2; 2; 2]%Z.
Proof.
  rewrite flatten_contiguous.
  apply nth_error_ext. intros k.
  rewrite nth_error_map, nth_error_seq. cbn [array_size Nat.mul Nat.add].
  destruct (Nat.ltb_spec k 8) as [L|L].
  - cbn [option_map]. rewrite sliding_window_at by assumption.
    do 8 (destruct k as [|k]; [reflexivity|]). lia.
  - cbn [option_map]. symmetry. apply nth_error_None. simpl. lia.
Qed.

(** The check that closes the test,
    [array_nd_ref{Ns}.operator==({{0,0},{1,1},{2,2},{2,2}})], holds. *)
Lemma sliding_window_check_holds (Ns tmp : addr) (m : mem Z) :
  Ns + 8 <= tmp \/ tmp + 8 <= Ns ->
  sliding_window_check Ns tmp m = true.
Proof.
  intros D. unfold sliding_window_check, eq_array.
  apply eq_ref_spec; [discriminate|].
  intros k Hk. cbn [a bind]. simpl in Hk.
  rewrite aggregate_init_frame
    by (destruct (in_range_spec tmp (array_size [4; 2]) (Ns + k));
        [simpl in *; lia | reflexivity]).
  rewrite sliding_window_at by assumption.
  do 8 (destruct k as [|k];
        [ match goal with
          | |- context [tmp + ?n] =>
              let i := eval vm_compute in (Nat.div n 2) in
              let j := eval vm_compute in (Nat.modulo n 2) in
              change (tmp + n) with (tmp + offset [4; 2] [i; j])
          end;
          rewrite aggregate_init_spec by reflexivity; reflexivity
        | ]).
  lia.
Qed.

(** ** Instances on the data of the test program *)

(** The swap test: [a] all false and [b] all true exchange their last
    scalars. *)
Lemma deep_swap_exchanges_witness :
  requires_array [2; 2] = true /\
  (a (bind 0) + array_size [2; 2] <= 4 \/
   4 + array_size [2; 2] <= a (bind 0)) /\
  snd (swap_array [2; 2] (bind 0) 4 false_then_true) (a (bind 0) + 3) = true /\
  snd (swap_array [2; 2] (bind 0) 4 false_then_true) (4 + 3) = false.
Proof.
  assert (R : requires_array [2; 2] = true) by reflexivity.
  assert (D : a (bind 0) + array_size [2; 2] <= 4 \/
              4 + array_size [2; 2] <= a (bind 0)) by (simpl; lia).
  split; [exact R|]. split; [exact D|].
  destruct (@deep_swap_exchanges bool [2; 2] (bind 0) 4 false_then_true R D)
    as [E _].
  apply (E 3). simpl. lia.
Defined.

(** Row 1 of an [int[2][2]] at address 0 is at address 2 by [at] and by
    [operator()]. *)
Lemma access_paths_agree_witness :
  1 < extent [2; 2] /\
  designated Checked [2; 2] (bind 0) 1 last_differs = Some 2 /\
  designated Wrapped [2; 2] (bind 0) 1 last_differs = Some 2.
Proof.
  assert (L : 1 < extent [2; 2]) by (simpl; lia).
  split; [exact L|].
  destruct (@access_paths_agree Z [2; 2] (bind 0) 1 last_differs L) as [E _].
  split; apply E.
Defined.

(** Two [int[2][2]] that differ in the last scalar are unequal, and equal
    once it is corrected. *)
Lemma equality_is_elementwise_witness :
  requires_array [2; 2] = true /\
  eq_ref [2; 2] (bind 0) (bind 4) last_differs = false /\
  eq_ref [2; 2] (bind 0) (bind 4)
    (store last_differs (a (bind 4) + 3) (last_differs (a (bind 0) + 3)))
  = true.
Proof.
  assert (R : requires_array [2; 2] = true) by reflexivity.
  split; [exact R|].
  destruct (equality_is_elementwise [2; 2] (bind 0) (bind 4) last_differs R)
    as (_ & _ & E).
  apply (E 3).
  - exact Z.eqb_refl.
  - simpl. lia.
  - simpl. lia.
  - intros k Hk NE.
    do 4 (destruct k as [|k]; [reflexivity || congruence|]).
    simpl in Hk. lia.
  - reflexivity.
Defined.

(** [{{1,2},{3,4}} < {{1,2},{3,5}}], as for the flat sequences. *)
Lemma ordering_is_lexicographic_witness :
  requires_array [2; 2] = true /\
  lt_ref [2; 2] (bind 0) (bind 4) last_differs = true /\
  lex_less (flatten [2; 2] (a (bind 0)) last_differs)
           (flatten [2; 2] (a (bind 4)) last_differs).
Proof.
  assert (R : requires_array [2; 2] = true) by reflexivity.
  assert (Irr : forall s : Z, ltv s s = false) by exact Z.ltb_irrefl.
  assert (Tot : forall s t : Z, ltv s t = false -> ltv t s = false -> s = t).
  { intros s t E1 E2. simpl in E1, E2.
    apply Z.ltb_ge in E1. apply Z.ltb_ge in E2. lia. }
  split; [exact R|].
  destruct (@ordering_is_lexicographic Z _ [2; 2] (bind 0) (bind 4)
              last_differs R) as [E O].
  destruct (O Irr Tot) as [LL _].
  assert (T : lt_ref [2; 2] (bind 0) (bind 4) last_differs = true)
    by (rewrite E; reflexivity).
  split; [exact T | exact (proj1 LL T)].
Defined.

(** [array_nd_ref{b} = {{1}}] leaves zero in [b[0][1]]. *)
Lemma assign_from_braced_list_witness :
  requires_array [2; 2] = true /\
  well_formed_init [2; 2] one_clause = true /\
  valid_index [2; 2] [0; 1] = true /\
  (a (bind 0) + array_size [2; 2] <= 4 \/
   4 + array_size [2; 2] <= a (bind 0)) /\
  snd (assign_init [2; 2] (bind 0) one_clause 4 b_before)
    (a (bind 0) + offset [2; 2] [0; 1]) = false.
Proof.
  assert (R : requires_array [2; 2] = true) by reflexivity.
  assert (W : well_formed_init [2; 2] one_clause = true) by reflexivity.
  assert (I : valid_index [2; 2] [0; 1] = true) by reflexivity.
  assert (D : a (bind 0) + array_size [2; 2] <= 4 \/
              4 + array_size [2; 2] <= a (bind 0)) by (simpl; lia).
  split; [exact R|]. split; [exact W|]. split; [exact I|]. split; [exact D|].
  exact (@assign_from_braced_list bool _ [2; 2] (bind 0) one_clause 4
           b_before [0; 1] R W I D).
Defined.

(** * Further properties *)

(** ** Fill, deep assignment and deep swap *)

Section Mutators.

Context {V : Type} `{Scalar V}.

Implicit Types (m : mem V) (p q r : addr) (A X : shape) (w x y : array_nd_ref).

(** Two arrays whose scalars agree place by place have the same
    flattening. *)
Lemma flatten_ext A p1 p2 (m1 m2 : mem V) :
  (forall k, k < array_size A -> m1 (p1 + k) = m2 (p2 + k)) ->
  flatten A p1 m1 = flatten A p2 m2.
Proof.
  rewrite !flatten_contiguous. generalize (array_size A) as n.
  intros n; revert p1 p2; induction n as [|n IH]; intros p1 p2 E; simpl;
    [reflexivity|].
  f_equal.
  - specialize (E 0). rewrite !Nat.add_0_r in E. apply E. lia.
  - apply IH. intros k Hk. specialize (E (S k)).
    rewrite !Nat.add_succ_r in E. apply E. lia.
Qed.

(** [operator==] and [operator<] depend on the scalars of the two arrays
    only. *)
Lemma eq_ref_ext A x y x' y' (m m' : mem V) :
  A <> [] ->
  (forall k, k < array_size A -> m (a x + k) = m' (a x' + k)) ->
  (forall k, k < array_size A -> m (a y + k) = m' (a y' + k)) ->
  eq_ref A x y m = eq_ref A x' y' m'.
Proof.
  intros NE Ex Ey. apply eq_iff_eq_true.
  rewrite !eq_ref_spec by assumption.
  split; intros E k Hk; specialize (E k Hk).
  - now rewrite <- Ex, <- Ey.
  - now rewrite Ex, Ey.
Qed.

Lemma lt_ref_ext A x y x' y' (m m' : mem V) :
  A <> [] ->
  (forall k, k < array_size A -> m (a x + k) = m' (a x' + k)) ->
  (forall k, k < array_size A -> m (a y + k) = m' (a y' + k)) ->
  lt_ref A x y m = lt_ref A x' y' m'.
Proof.
  intros NE Ex Ey. rewrite !lt_ref_flatten by assumption.
  now rewrite (@flatten_ext A _ _ _ _ Ex), (@flatten_ext A _ _ _ _ Ey).
Qed.

(** X1: [fill] leaves its value in every scalar of the array the wrapper
    refers to, at every depth, and changes no scalar outside it. *)
Theorem fill_sets_every_scalar A w (e : V) m :
  requires_array A = true ->
  (forall k, k < array_size A -> snd (fill A w e m) (a w + k) = e) /\
  (forall q, in_range (a w) (array_size A) q = false ->
             snd (fill A w e m) q = m q) /\
  flatten A (a w) (snd (fill A w e m)) = repeat e (array_size A).
Proof.
  intros R. apply requires_array_nonempty in R.
  assert (In_ : forall k, k < array_size A ->
                          snd (fill A w e m) (a w + k) = e).
  { intros k Hk. rewrite fill_spec by assumption.
    destruct (in_range_spec (a w) (array_size A) (a w + k));
      [reflexivity | lia]. }
  repeat split.
  - exact In_.
  - intros q Q. rewrite fill_spec by assumption. now rewrite Q.
  - apply nth_error_ext. intros k.
    destruct (Nat.lt_ge_cases k (array_size A)) as [L|L].
    + rewrite nth_error_flatten, In_ by assumption.
      symmetry. now apply nth_error_repeat.
    + rewrite (proj2 (nth_error_None _ _))
        by now rewrite length_flatten.
      symmetry. apply nth_error_None. now rewrite repeat_length.
Qed.

(** X2: deep assignment from an array that starts at or after the
    referred-to array, or lies wholly before it, gives every scalar of the
    referred-to array the value the source had there, and changes nothing
    outside the referred-to array; a source that does not overlap it is
    left as it was. *)
Theorem deep_assignment_copies A w (rhs : addr) m :
  requires_array A = true ->
  a w <= rhs \/ rhs + array_size A <= a w ->
  (forall k, k < array_size A ->
     snd (assign A w rhs m) (a w + k) = m (rhs + k)) /\
  (forall q, in_range (a w) (array_size A) q = false ->
             snd (assign A w rhs m) q = m q) /\
  (a w + array_size A <= rhs \/ rhs + array_size A <= a w ->
   forall k, k < array_size A ->
     snd (assign A w rhs m) (rhs + k) = m (rhs + k)).
Proof.
  intros R Hs. apply requires_array_nonempty in R.
  assert (E : forall q,
    snd (assign A w rhs m) q =
    if in_range (a w) (array_size A) q then m (rhs + (q - a w)) else m q)
    by (intros q; now apply assign_spec).
  repeat split.
  - intros k Hk. rewrite E.
    destruct (in_range_spec (a w) (array_size A) (a w + k)); [|lia].
    f_equal. lia.
  - intros q Q. now rewrite E, Q.
  - intros D k Hk. rewrite E.
    destruct (in_range_spec (a w) (array_size A) (rhs + k));
      [lia | reflexivity].
Qed.

(** X3: after deep assignment from the referred-to array itself or from an
    array that does not overlap it, the wrapper compares equal to the
    source, provided [==] on the scalars is reflexive. *)
Theorem assigned_compares_equal A w (rhs : addr) m :
  requires_array A = true ->
  (forall v : V, eqv v v = true) ->
  a w = rhs \/ a w + array_size A <= rhs \/ rhs + array_size A <= a w ->
  eq_array A w rhs (snd (assign A w rhs m)) = true.
Proof.
  intros R Refl Hs. apply requires_array_nonempty in R.
  unfold eq_array. apply eq_ref_spec; [assumption|].
  intros k Hk. cbn [a bind].
  rewrite !assign_spec by (assumption || (unfold copy_safe; lia)).
  destruct (in_range_spec (a w) (array_size A) (a w + k)); [|lia].
  destruct (in_range_spec (a w) (array_size A) (rhs + k)).
  - replace (rhs + (rhs + k - a w)) with (rhs + (a w + k - a w)) by lia.
    apply Refl.
  - replace (rhs + (a w + k - a w)) with (rhs + k) by lia. apply Refl.
Qed.

Lemma exchanged_twice p q n m r :
  same_or_apart p q n ->
  exchanged p q n (exchanged p q n m) r = m r.
Proof.
  unfold same_or_apart, exchanged. intros Hs.
  destruct (in_range_spec p n r), (in_range_spec q n r);
    repeat match goal with
      | |- context [in_range ?u ?v ?t] => destruct (in_range_spec u v t)
      end; try lia; try reflexivity; f_equal; lia.
Qed.

Lemma exchanged_sym p q n m r :
  same_or_apart p q n ->
  exchanged p q n m r = exchanged q p n m r.
Proof.
  unfold same_or_apart, exchanged. intros Hs.
  destruct (in_range_spec p n r), (in_range_spec q n r);
    try lia; try reflexivity; f_equal; lia.
Qed.

Lemma exchanged_ext p q n (m1 m2 : mem V) r :
  (forall t, m1 t = m2 t) -> exchanged p q n m1 r = exchanged p q n m2 r.
Proof.
  intros E. unfold exchanged.
  destruct (in_range p n r); [apply E|].
  destruct (in_range q n r); apply E.
Qed.

(** The deep swap depends on the memory scalar by scalar. *)
Lemma swap_array_ext A w (b : addr) (m1 m2 : mem V) r :
  A <> [] -> same_or_apart (a w) b (array_size A) ->
  (forall t, m1 t = m2 t) ->
  snd (swap_array A w b m1) r = snd (swap_array A w b m2) r.
Proof.
  intros NE Hs E. rewrite !swap_array_spec by assumption.
  now apply exchanged_ext.
Qed.

(** X5: the deep swap of a wrapper with an array that is the referred-to
    array or does not overlap it, done twice, gives back the memory it
    started from. *)
Theorem deep_swap_twice_restores A w (b : addr) m :
  requires_array A = true ->
  a w = b \/ a w + array_size A <= b \/ b + array_size A <= a w ->
  forall q, snd (swap_array A w b (snd (swap_array A w b m))) q = m q.
Proof.
  intros R Hs q. apply requires_array_nonempty in R.
  rewrite swap_array_spec by assumption.
  rewrite (exchanged_ext _ _ _ _ (exchanged (a w) b (array_size A) m))
    by (intros t; now apply swap_array_spec).
  now apply exchanged_twice.
Qed.

(** X6: the two free deep swaps, [swap(wrapper, array)] and
    [swap(array, wrapper)], leave the same memory whichever of the two
    arrays is the wrapped one, and leave the handle of the wrapper as it
    was. *)
Theorem free_deep_swaps_agree A (p q : addr) m :
  requires_array A = true ->
  p = q \/ p + array_size A <= q \/ q + array_size A <= p ->
  (forall r, snd (swap_free_ref_array A (bind p) q m) r =
             snd (swap_free_array_ref A p (bind q) m) r) /\
  (forall r, snd (swap_free_ref_array A (bind p) q m) r =
             snd (swap_array A (bind p) q m) r) /\
  a (fst (swap_free_ref_array A (bind p) q m)) = p /\
  a (fst (swap_free_array_ref A p (bind q) m)) = q.
Proof.
  intros R Hs. apply requires_array_nonempty in R.
  repeat split. intros r.
  unfold swap_free_ref_array, swap_free_array_ref. cbn [snd].
  rewrite !swap_array_spec
    by (assumption || (unfold same_or_apart; cbn [a bind]; lia)).
  cbn [a bind]. now apply exchanged_sym.
Qed.

(** X7: after the deep swap of a wrapper with an array that does not
    overlap the referred-to array, each of the two arrays reads as the
    other did, so [==] and [<] between them hold as they held the other
    way round before. *)
Theorem deep_swap_flips_comparisons A w (b : addr) m :
  requires_array A = true ->
  a w + array_size A <= b \/ b + array_size A <= a w ->
  let m' := snd (swap_array A w b m) in
  flatten A (a w) m' = flatten A b m /\
  flatten A b m' = flatten A (a w) m /\
  eq_ref A w (bind b) m' = eq_ref A (bind b) w m /\
  lt_ref A w (bind b) m' = lt_ref A (bind b) w m.
Proof.
  intros R D m'. apply requires_array_nonempty in R.
  assert (E : forall r, m' r = exchanged (a w) b (array_size A) m r).
  { intros r. apply swap_array_spec; [assumption|].
    unfold same_or_apart. tauto. }
  assert (E1 : forall k, k < array_size A -> m' (a w + k) = m (b + k)).
  { intros k Hk. rewrite E. unfold exchanged.
    destruct (in_range_spec (a w) (array_size A) (a w + k)); [|lia].
    f_equal. lia. }
  assert (E2 : forall k, k < array_size A -> m' (b + k) = m (a w + k)).
  { intros k Hk. rewrite E. unfold exchanged.
    destruct (in_range_spec (a w) (array_size A) (b + k)); [lia|].
    destruct (in_range_spec b (array_size A) (b + k)); [|lia].
    f_equal. lia. }
  repeat split.
  - now apply flatten_ext.
  - now apply flatten_ext.
  - now apply eq_ref_ext.
  - now apply lt_ref_ext.
Qed.

End Mutators.

(** ** The comparison operators as relations *)

Section Relations.

Context {V : Type} `{Scalar V}.

Implicit Types (m : mem V) (A X : shape) (x y z : array_nd_ref).
Implicit Types (u v w : list V).

(** A test on the indices below [n] holds for all or fails for one. *)
Lemma all_or_one (c : nat -> bool) (n : nat) :
  (forall k, k < n -> c k = true) \/ (exists k, k < n /\ c k = false).
Proof.
  induction n as [|n [IH|(k & Hk & E)]].
  - left. intros k Hk. lia.
  - destruct (c n) eqn:E.
    + left. intros k Hk.
      destruct (Nat.eq_dec k n) as [->|]; [assumption | apply IH; lia].
    + right. exists n. split; [lia | assumption].
  - right. exists k. split; [lia | assumption].
Qed.

(** X8: [operator==] on wrappers is reflexive, symmetric and transitive
    whenever [==] on the scalars is; a wrapper need not equal itself when a
    scalar does not equal itself. *)
Theorem equality_is_an_equivalence A x y z m :
  ((forall s : V, eqv s s = true) -> eq_ref A x x m = true) /\
  ((forall s t : V, eqv s t = eqv t s) ->
   eq_ref A x y m = eq_ref A y x m) /\
  ((forall s t r : V, eqv s t = true -> eqv t r = true -> eqv s r = true) ->
   eq_ref A x y m = true -> eq_ref A y z m = true ->
   eq_ref A x z m = true).
Proof.
  destruct A as [|N X]; [repeat split|].
  assert (NE : N :: X <> []) by discriminate.
  split; [|split].
  - intros Refl. apply eq_ref_spec; [assumption|]. intros k _. apply Refl.
  - intros Sym. apply eq_iff_eq_true. rewrite !eq_ref_spec by assumption.
    split; intros E k Hk; rewrite Sym; now apply E.
  - intros Trans. rewrite !eq_ref_spec by assumption.
    intros E1 E2 k Hk. eapply Trans; [now apply E1 | now apply E2].
Qed.

(** X9: [operator!=] holds exactly when some scalar of the one array does
    not compare equal with the scalar of the other at the same place; the
    member [operator!=] taking an array is the same test. *)
Theorem inequality_finds_a_difference A x y m :
  requires_array A = true ->
  (ne_ref A x y m = true <->
   exists k, k < array_size A /\ eqv (m (a x + k)) (m (a y + k)) = false) /\
  ne_array A x (a y) m = ne_ref A x y m.
Proof.
  intros R. apply requires_array_nonempty in R.
  split; [|now destruct y].
  unfold ne_ref. rewrite negb_true_iff. split.
  - intros E.
    destruct (all_or_one (fun k => eqv (m (a x + k)) (m (a y + k)))
                (array_size A)) as [All|One]; [|exact One].
    apply (eq_ref_spec x y m R) in All. congruence.
  - intros (k & Hk & D). apply not_true_is_false. intros E.
    rewrite (eq_ref_spec x y m R) in E. rewrite E in D by assumption.
    discriminate.
Qed.

Section StrictTotal.

Hypothesis ltv_irrefl : forall s : V, ltv s s = false.
Hypothesis ltv_trans :
  forall s t r : V, ltv s t = true -> ltv t r = true -> ltv s r = true.
Hypothesis ltv_total :
  forall s t : V, ltv s t = false -> ltv t s = false -> s = t.

Lemma ltv_asym (s t : V) : ltv s t = true -> ltv t s = false.
Proof.
  intros E. destruct (ltv t s) eqn:E'; [|reflexivity].
  rewrite <- (ltv_irrefl s). symmetry. now apply ltv_trans with t.
Qed.

Lemma first_diff_same u : first_diff u u = None.
Proof.
  induction u as [|s u IH]; [reflexivity|].
  simpl. now rewrite ltv_irrefl.
Qed.

Lemma first_diff_flip u v :
  first_diff v u = option_map negb (first_diff u v).
Proof.
  revert v; induction u as [|s u IH]; intros [|t v]; simpl; try reflexivity.
  destruct (ltv s t) eqn:E1.
  - now rewrite (ltv_asym _ _ E1).
  - destruct (ltv t s) eqn:E2; [reflexivity | apply IH].
Qed.

Lemma first_diff_trans u v w :
  first_diff u v = Some true -> first_diff v w = Some true ->
  first_diff u w = Some true.
Proof.
  revert v w; induction u as [|s u IH]; intros [|t v] [|r w]; simpl;
    try discriminate.
  destruct (ltv s t) eqn:E1.
  - intros _. destruct (ltv t r) eqn:E2.
    + intros _. now rewrite (ltv_trans _ _ _ E1 E2).
    + destruct (ltv r t) eqn:E3; [discriminate|].
      rewrite <- (ltv_total _ _ E2 E3). now rewrite E1.
  - destruct (ltv t s) eqn:E2; [discriminate|].
    rewrite <- (ltv_total _ _ E1 E2).
    destruct (ltv s r) eqn:E3; [reflexivity|].
    destruct (ltv r s) eqn:E4; [discriminate|]. apply IH.
Qed.

Lemma decides_less_true (d : option bool) :
  decides_less d = true <-> d = Some true.
Proof. destruct d as [[|]|]; simpl; split; congruence. Qed.

Lemma lt_ref_irrefl A x m : lt_ref A x x m = false.
Proof.
  destruct A as [|N X]; [reflexivity|].
  rewrite lt_ref_flatten by discriminate. now rewrite first_diff_same.
Qed.

Lemma lt_ref_asym A x y m : lt_ref A x y m = true -> lt_ref A y x m = false.
Proof.
  destruct A as [|N X]; [discriminate|].
  rewrite !lt_ref_flatten by discriminate.
  rewrite (first_diff_flip (flatten (N :: X) (a x) m)).
  now destruct (first_diff _ _) as [[|]|].
Qed.

Lemma lt_ref_trans A x y z m :
  lt_ref A x y m = true -> lt_ref A y z m = true -> lt_ref A x z m = true.
Proof.
  destruct A as [|N X]; [discriminate|].
  rewrite !lt_ref_flatten by discriminate.
  rewrite !decides_less_true. apply first_diff_trans.
Qed.

(** With [==] on the scalars deciding their equality, [operator==] holds
    exactly when the flattenings are the same. *)
Lemma eq_ref_same_flatten A x y m :
  (forall s t : V, eqv s t = true <-> s = t) ->
  A <> [] ->
  (eq_ref A x y m = true <-> flatten A (a x) m = flatten A (a y) m).
Proof.
  intros Dec NE. rewrite eq_ref_spec by assumption. split.
  - intros E. apply flatten_ext. intros k Hk. apply Dec. now apply E.
  - intros E k Hk. apply Dec.
    apply (f_equal (fun l => nth_error l k)) in E.
    rewrite !nth_error_flatten in E by assumption. congruence.
Qed.

End StrictTotal.

(** X10: when [<] on the scalars is a strict total order, [operator<] on
    wrappers is irreflexive, asymmetric and transitive. *)
Theorem ordering_is_a_strict_order A x y z m :
  (forall s : V, ltv s s = false) ->
  (forall s t r : V, ltv s t = true -> ltv t r = true -> ltv s r = true) ->
  (forall s t : V, ltv s t = false -> ltv t s = false -> s = t) ->
  lt_ref A x x m = false /\
  (lt_ref A x y m = true -> lt_ref A y x m = false) /\
  (lt_ref A x y m = true -> lt_ref A y z m = true ->
   lt_ref A x z m = true).
Proof.
  intros Irr Trans Tot. split; [|split].
  - now apply lt_ref_irrefl.
  - now apply lt_ref_asym.
  - now apply lt_ref_trans.
Qed.

(** X11: when [<] on the scalars is a strict total order and [==] decides
    their equality, the six comparison operators fit together: exactly
    one of [x < y], [x == y], [x > y] holds, [<=] is [<] or [==], [>=] is
    [>] or [==], and [!=] is [<] or [>]. *)
Theorem comparisons_are_consistent A x y m :
  requires_array A = true ->
  (forall s : V, ltv s s = false) ->
  (forall s t r : V, ltv s t = true -> ltv t r = true -> ltv s r = true) ->
  (forall s t : V, ltv s t = false -> ltv t s = false -> s = t) ->
  (forall s t : V, eqv s t = true <-> s = t) ->
  eq_ref A x y m = negb (lt_ref A x y m) && negb (gt_ref A x y m) /\
  (lt_ref A x y m = true -> gt_ref A x y m = false) /\
  le_ref A x y m = lt_ref A x y m || eq_ref A x y m /\
  ge_ref A x y m = gt_ref A x y m || eq_ref A x y m /\
  ne_ref A x y m = lt_ref A x y m || gt_ref A x y m.
Proof.
  intros R Irr Trans Tot Dec. apply requires_array_nonempty in R.
  assert (E : eq_ref A x y m = true <->
              first_diff (flatten A (a x) m) (flatten A (a y) m) = None).
  { rewrite (eq_ref_same_flatten x y m Dec R).
    symmetry. apply (first_diff_none Irr Tot). now rewrite !length_flatten. }
  unfold le_ref, ge_ref, ne_ref, gt_ref.
  rewrite !lt_ref_flatten by assumption.
  rewrite (first_diff_flip Irr Trans (flatten A (a x) m)).
  destruct (eq_ref A x y m) eqn:B;
    destruct (first_diff (flatten A (a x) m) (flatten A (a y) m))
      as [[|]|]; simpl;
    try (pose proof (proj1 E eq_refl); discriminate);
    try (pose proof (proj2 E eq_refl); discriminate);
    repeat split; congruence.
Qed.

End Relations.

(** ** Sizes, ends and multi-indices *)

Section Layout.

Context {V : Type} `{Scalar V}.

Implicit Types (m : mem V) (A X : shape) (w : array_nd_ref).
Implicit Types (idx : list nat).

(** X12: for an array type the class accepts, [front()] is what [at(0)]
    returns and is where [begin()] points, [back()] is what
    [at(size() - 1)] returns and lies one element before [end()],
    [at(size())] throws, and the constant answer of [empty()] agrees with
    [size()] and [max_size()]. *)
Theorem front_and_back_are_in_bounds A w m :
  requires_array A = true ->
  fst (at_ A w 0 m) = Returns (front A w) /\
  fst (at_ A w (size A - 1) m) = Returns (back A w) /\
  front A w = begin_ w /\
  back A w + array_size (remove_extent A) = end_ A w /\
  fst (at_ A w (size A) m) = Throws_out_of_range /\
  empty A = (size A =? 0) /\
  max_size A = size A.
Proof.
  intros R. destruct A as [|N X]; [discriminate|].
  destruct N as [|N]; [discriminate|].
  unfold at_, front, back, begin_, end_, subscript, size, empty, max_size.
  cbn [extent remove_extent].
  replace (S N - 1) with N by lia.
  destruct (Nat.leb_spec (S N) 0); [lia|].
  destruct (Nat.leb_spec (S N) N); [lia|].
  destruct (Nat.leb_spec (S N) (S N)); [|lia].
  repeat split; cbn [fst]; try reflexivity; lia.
Qed.

(** X13: [array_size] is the product of the extents: it multiplies over
    nested array types and is zero exactly for a type with a zero extent
    (an array of unknown bound). *)
Theorem array_size_is_the_product A B :
  array_size (A ++ B) = array_size A * array_size B /\
  array_size A = fold_right Nat.mul 1 A /\
  (array_size A = 0 <-> In 0 A).
Proof.
  repeat split.
  - induction A as [|N A IH]; simpl; [lia|]. rewrite IH. lia.
  - induction A as [|N A IH]; simpl; [reflexivity|]. rewrite IH. lia.
  - induction A as [|N A IH]; simpl; [lia|].
    intros E. apply Nat.eq_mul_0 in E as [E|E]; [right; now apply IH | now left].
  - induction A as [|N A IH]; simpl; [tauto|].
    intros [->|I]; [lia|]. rewrite (IH I). reflexivity.
Qed.

Lemma builtin_chain_offset X (p : addr) idx :
  length idx <= length X ->
  builtin_chain X p idx = p + offset X idx.
Proof.
  revert X p; induction idx as [|j idx IH]; intros X p L.
  - destruct X; simpl; lia.
  - destruct X as [|N X]; [simpl in L; lia|].
    cbn [builtin_chain remove_extent offset]. rewrite IH by (simpl in L; lia).
    unfold builtin_subscript. cbn [remove_extent]. lia.
Qed.

Lemma valid_index_length A idx :
  valid_index A idx = true -> length idx = length A.
Proof.
  revert idx; induction A as [|N A IH]; intros [|i idx] E; simpl in *;
    try discriminate; [reflexivity|].
  apply andb_true_iff in E as [_ E]. now rewrite (IH idx E).
Qed.

(** X14: for a multi-index within the extents, [w[i1]...[iR]] and
    [w(i1)...(iR)] designate the same scalar, the one at the row-major
    offset of the multi-index from the handle. *)
Theorem indexing_chains_agree A w idx :
  requires_array A = true ->
  valid_index A idx = true ->
  subscript_chain A w idx = a w + offset A idx /\
  paren_chain A w idx = Some (Elem (a w + offset A idx)).
Proof.
  intros R I. apply requires_array_nonempty in R. split.
  - pose proof (valid_index_length A idx I) as L.
    destruct A as [|N X]; [congruence|].
    destruct idx as [|i idx]; [discriminate|].
    cbn [subscript_chain remove_extent offset].
    rewrite builtin_chain_offset by (simpl in L; lia).
    unfold subscript. cbn [remove_extent]. lia.
  - revert w idx I R; induction A as [|N X IH]; intros w idx I NE;
      [congruence|].
    destruct idx as [|i idx]; [discriminate|].
    simpl in I. apply andb_true_iff in I as [_ I].
    destruct X as [|M X'].
    + destruct idx; [|simpl in I; discriminate]. simpl.
      unfold paren_elem, subscript. simpl. do 2 f_equal. lia.
    + cbn [paren_chain]. unfold paren. cbn [rank length Nat.eqb].
      cbn [remove_extent].
      change (offset (N :: M :: X') (i :: idx))
        with (i * array_size (M :: X') + offset (M :: X') idx).
      rewrite IH by (assumption || discriminate).
      rewrite a_paren_sub. do 2 f_equal. lia.
Qed.

Lemma offset_inj A idx1 idx2 :
  valid_index A idx1 = true -> valid_index A idx2 = true ->
  offset A idx1 = offset A idx2 -> idx1 = idx2.
Proof.
  revert idx1 idx2; induction A as [|N X IH];
    intros [|i1 idx1] [|i2 idx2] I1 I2 E; simpl in *; try discriminate;
    [reflexivity|].
  apply andb_true_iff in I1 as [_ I1]. apply andb_true_iff in I2 as [_ I2].
  pose proof (offset_lt X idx1 I1) as L1.
  pose proof (offset_lt X idx2 I2) as L2.
  assert (i1 = i2) as ->.
  { destruct (Nat.lt_total i1 i2) as [L|[L|L]]; [ | assumption | ].
    - pose proof (Nat.mul_le_mono_r (S i1) i2 (array_size X) L). lia.
    - pose proof (Nat.mul_le_mono_r (S i2) i1 (array_size X) L). lia. }
  f_equal. apply IH; [assumption | assumption | lia].
Qed.

Lemma offset_onto A k :
  k < array_size A ->
  exists idx, valid_index A idx = true /\ offset A idx = k.
Proof.
  revert k; induction A as [|N X IH]; intros k Hk; simpl in Hk.
  - exists []. split; [reflexivity | simpl; lia].
  - assert (NZ : array_size X <> 0) by (intros E; rewrite E in Hk; lia).
    destruct (IH (k mod array_size X)) as (idx & I & E);
      [now apply Nat.mod_upper_bound|].
    exists (k / array_size X :: idx). split.
    + simpl. rewrite I, andb_true_r. apply Nat.ltb_lt.
      apply Nat.Div0.div_lt_upper_bound. lia.
    + simpl. rewrite E.
      rewrite (Nat.div_mod_eq k (array_size X)) at 3. lia.
Qed.

(** X15: the row-major offset is a one-to-one correspondence between the
    multi-indices within the extents and the places below [array_size]:
    two different indexings never reach the same scalar, and every scalar
    of the array is reached by one. *)
Theorem offset_is_one_to_one A :
  (forall idx, valid_index A idx = true -> offset A idx < array_size A) /\
  (forall idx1 idx2,
     valid_index A idx1 = true -> valid_index A idx2 = true ->
     offset A idx1 = offset A idx2 -> idx1 = idx2) /\
  (forall k, k < array_size A ->
     exists idx, valid_index A idx = true /\ offset A idx = k).
Proof.
  split; [|split].
  - apply offset_lt.
  - apply offset_inj.
  - apply offset_onto.
Qed.

(** X16: after assignment from a braced list, comparing the wrapper with
    the same braced list gives true, for reflexive [==] on the scalars and
    temporaries that do not overlap the referred-to array. *)
Theorem assigned_list_compares_equal A w (init : init_list V)
    (tmp1 tmp2 : addr) m :
  requires_array A = true ->
  well_formed_init A init = true ->
  (forall v : V, eqv v v = true) ->
  a w + array_size A <= tmp1 \/ tmp1 + array_size A <= a w ->
  a w + array_size A <= tmp2 \/ tmp2 + array_size A <= a w ->
  eq_init A w init tmp2 (snd (assign_init A w init tmp1 m)) = true.
Proof.
  intros R W Refl D1 D2. apply requires_array_nonempty in R.
  unfold eq_init, eq_array. apply eq_ref_spec; [assumption|].
  intros k Hk. cbn [a bind].
  destruct (offset_onto A Hk) as (idx & I & <-).
  rewrite (@aggregate_init_spec V H A init tmp2 _ idx W I).
  rewrite aggregate_init_frame
    by (destruct (in_range_spec tmp2 (array_size A) (a w + offset A idx));
        [lia | reflexivity]).
  unfold assign_init.
  rewrite assign_spec by (assumption || (unfold copy_safe; lia)).
  destruct (in_range_spec (a w) (array_size A) (a w + offset A idx)); [|lia].
  replace (tmp1 + (a w + offset A idx - a w)) with (tmp1 + offset A idx)
    by lia.
  rewrite (@aggregate_init_spec V H A init tmp1 _ idx W I). apply Refl.
Qed.

End Layout.

(** ** Transpose and trace of the test program *)

Section Square.

Context {V : Type} `{Scalar V}.

Implicit Types (m : mem V) (p q : addr) (A : shape).

Lemma for_loop_ext {St : Type} (n i : nat) (f g : nat -> St -> St) (s : St) :
  (forall j t, i <= j < i + n -> f j t = g j t) ->
  for_loop n i f s = for_loop n i g s.
Proof.
  revert i s; induction n as [|n IH]; intros i s E; simpl; [reflexivity|].
  rewrite E by lia. apply IH. intros; apply E; lia.
Qed.

Lemma SquareArray_inv A : SquareArray A = true -> exists N, A = [N; N].
Proof.
  unfold SquareArray. intros E. apply andb_true_iff in E as [E1 E2].
  destruct A as [|N1 [|N2 [|N3 A]]]; try discriminate.
  simpl in E2. apply Nat.eqb_eq in E2 as ->. now exists N2.
Qed.

(** The scalar [a[i][j]] of a square array of side [N] at [p]. *)
Lemma builtin_chain_cell N p i j :
  builtin_chain [N; N] p [i; j] = p + i * N + j.
Proof. unfold builtin_chain, builtin_subscript. simpl. lia. Qed.

Lemma cell_eqb N p r c r' c' :
  c < N -> c' < N ->
  (p + r * N + c =? p + r' * N + c') = (r =? r') && (c =? c').
Proof.
  intros Hc Hc'.
  destruct (Nat.eqb_spec r r') as [->|NE]; simpl.
  - destruct (Nat.eqb_spec c c') as [->|NE'].
    + apply Nat.eqb_refl.
    + apply Nat.eqb_neq. lia.
  - apply Nat.eqb_neq.
    destruct (Nat.lt_total r r') as [L|[L|L]]; [ | congruence | ].
    + pose proof (Nat.mul_le_mono_r (S r) r' N L). lia.
    + pose proof (Nat.mul_le_mono_r (S r') r N L). lia.
Qed.

Lemma cell_in_range N p r c :
  r < N -> c < N -> in_range p (N * N) (p + r * N + c) = true.
Proof.
  intros Hr Hc. pose proof (mul_lt_block N Hr).
  destruct (in_range_spec p (N * N) (p + r * N + c)); [reflexivity | lia].
Qed.

Lemma reached_step N p m i j m' :
  i <= j < N ->
  reached N p m i j m' ->
  reached N p m i (S j)
    (swap_value [] (p + i * N + j) (p + j * N + i) m').
Proof.
  intros B [Cells Frame]. split.
  - intros r c Hr Hc. simpl. unfold store.
    rewrite !cell_eqb by lia.
    rewrite !Cells by lia. unfold swapped.
    destruct (Nat.eqb_spec r j), (Nat.eqb_spec c i),
             (Nat.eqb_spec r i), (Nat.eqb_spec c j); subst; simpl;
      repeat match goal with
        | |- context [?u <? ?v] => destruct (Nat.ltb_spec u v)
        | |- context [?u =? ?v] => destruct (Nat.eqb_spec u v)
        end; simpl; try reflexivity; try lia.
  - intros q Q. simpl. unfold store.
    destruct (Nat.eqb_spec q (p + j * N + i)) as [->|_].
    + rewrite cell_in_range in Q by lia. discriminate.
    + destruct (Nat.eqb_spec q (p + i * N + j)) as [->|_].
      * rewrite cell_in_range in Q by lia. discriminate.
      * now apply Frame.
Qed.

Lemma reached_inner N p m i n j m' :
  i <= j -> j + n <= N ->
  reached N p m i j m' ->
  reached N p m i (j + n)
    (for_loop n j
       (fun j' m2 => swap_value [] (p + i * N + j') (p + j' * N + i) m2) m').
Proof.
  revert j m'; induction n as [|n IH]; intros j m' L B R; simpl.
  - now rewrite Nat.add_0_r.
  - rewrite <- Nat.add_succ_comm. apply IH; [lia | lia | ].
    apply reached_step; [lia | assumption].
Qed.

Lemma reached_next_row N p m i m' :
  reached N p m i N m' -> reached N p m (S i) (S i) m'.
Proof.
  intros [Cells Frame]. split; [|assumption].
  intros r c Hr Hc. rewrite Cells by assumption.
  replace (swapped (S i) (S i) r c) with (swapped i N r c); [reflexivity|].
  unfold swapped.
  repeat match goal with
    | |- context [?u <? ?v] => destruct (Nat.ltb_spec u v)
    | |- context [?u =? ?v] => destruct (Nat.eqb_spec u v)
    end; simpl; try reflexivity; lia.
Qed.

Lemma reached_outer N p m n i m' :
  i + n = N ->
  reached N p m i i m' ->
  reached N p m N N
    (for_loop n i
       (fun i' m1 =>
          for_loop (N - i') i'
            (fun j' m2 =>
               swap_value [] (p + i' * N + j') (p + j' * N + i') m2) m1)
       m').
Proof.
  revert i m'; induction n as [|n IH]; intros i m' E R; simpl.
  - assert (Ei : i = N) by lia. subst i. assumption.
  - apply IH; [lia|]. apply reached_next_row.
    replace N with (i + (N - i)) at 2 by lia.
    apply reached_inner; [lia | lia | assumption].
Qed.

Lemma transpose_reached N p m :
  reached N p m N N (transpose [N; N] p m).
Proof.
  unfold transpose. cbn [extent remove_extent].
  erewrite for_loop_ext.
  - apply reached_outer with (i := 0); [lia|].
    split; [|reflexivity]. intros r c Hr Hc. unfold swapped. simpl.
    now destruct (Nat.min r c).
  - intros i m1 _. apply for_loop_ext. intros j m2 _.
    now rewrite !builtin_chain_cell.
Qed.

Lemma transpose_cell N p m r c :
  r < N -> c < N ->
  transpose [N; N] p m (p + r * N + c) = m (p + c * N + r).
Proof.
  intros Hr Hc. destruct (transpose_reached N p m) as [Cells _].
  rewrite Cells by assumption. unfold swapped.
  destruct (Nat.ltb_spec (Nat.min r c) N); [reflexivity | lia].
Qed.

Lemma transpose_frame N p m q :
  in_range p (N * N) q = false -> transpose [N; N] p m q = m q.
Proof.
  intros Q. destruct (transpose_reached N p m) as [_ Frame]. now apply Frame.
Qed.

(** X17: [transpose] of a square array leaves in [a[i][j]] what [a[j][i]]
    held, for all [i] and [j] below the side, and changes nothing outside
    the array. *)
Theorem transpose_exchanges_rows_and_columns A p m :
  SquareArray A = true ->
  (forall i j, i < extent A -> j < extent A ->
     transpose A p m (builtin_chain A p [i; j]) =
     m (builtin_chain A p [j; i])) /\
  (forall q, in_range p (array_size A) q = false ->
             transpose A p m q = m q).
Proof.
  intros Hs. destruct (SquareArray_inv A Hs) as [N ->]. split.
  - intros i j Hi Hj. rewrite !builtin_chain_cell. now apply transpose_cell.
  - intros q Q. apply transpose_frame.
    rewrite <- Q. f_equal. simpl. lia.
Qed.

(** X18: [transpose] done twice gives back the memory it started from. *)
Theorem transpose_twice_restores A p m :
  SquareArray A = true ->
  forall q, transpose A p (transpose A p m) q = m q.
Proof.
  intros Hs q. destruct (SquareArray_inv A Hs) as [N ->].
  destruct (in_range p (N * N) q) eqn:Q.
  - destruct (in_range_spec p (N * N) q) as [B|]; [|discriminate].
    assert (NZ : N <> 0) by (intros ->; lia).
    assert (Hc : (q - p) mod N < N) by now apply Nat.mod_upper_bound.
    assert (Hr : (q - p) / N < N)
      by (apply Nat.Div0.div_lt_upper_bound; lia).
    replace q with (p + (q - p) / N * N + (q - p) mod N)
      by (pose proof (Nat.div_mod_eq (q - p) N); lia).
    now rewrite !transpose_cell.
  - now rewrite !transpose_frame.
Qed.

(** X19: [trace] of a square array is the same before and after
    [transpose], whatever the addition of the scalars is. *)
Theorem trace_survives_transpose (add : V -> V -> V) A p m :
  SquareArray A = true ->
  trace add A p (transpose A p m) = trace add A p m.
Proof.
  intros Hs. destruct (SquareArray_inv A Hs) as [N ->].
  unfold trace. cbn [extent]. rewrite !builtin_chain_cell.
  destruct N as [|N].
  - simpl. apply transpose_frame.
    destruct (in_range_spec p (0 * 0) (p + 0 + 0)); [lia | reflexivity].
  - rewrite transpose_cell by lia.
    apply for_loop_ext. intros i sum Hi.
    rewrite !builtin_chain_cell. now rewrite transpose_cell by lia.
Qed.

End Square.

(** ** Windows, iterators and the bounds check *)

Section Windows.

Context {V : Type} `{Scalar V}.

Implicit Types (m : mem V) (A X : shape) (w : array_nd_ref).

(** X4: a wrapper of type [X[N]] built on the address of element [i] of a
    larger array of type [X[M]], with [i + N <= M], has element [i + j] of
    the larger array as its element [j]; filling it writes the rows [i] to
    [i + N - 1] of the larger array and no other scalar. *)
Theorem window_fill_touches_its_rows X (M N : nat) (p : addr) (i : nat)
    (e : V) m :
  requires_array (N :: X) = true ->
  i + N <= M ->
  let window := window_at X M p i in
  (forall j, subscript (N :: X) window j
             = builtin_subscript (M :: X) p (i + j)) /\
  (forall r k, r < M -> k < array_size X ->
     snd (fill (N :: X) window e m) (builtin_subscript (M :: X) p r + k) =
     if (i <=? r) && (r <? i + N) then e
     else m (builtin_subscript (M :: X) p r + k)) /\
  (forall q, in_range p (array_size (M :: X)) q = false ->
             snd (fill (N :: X) window e m) q = m q).
Proof.
  intros _ B window. unfold window, window_at, builtin_subscript, subscript.
  cbn [a remove_extent].
  pose proof (Nat.mul_le_mono_r (i + N) M (array_size X) B) as BM.
  split; [intros j; lia|]. split.
  - intros r k Hr Hk. rewrite fill_spec by discriminate.
    cbn [a]. rewrite array_size_cons.
    destruct (Nat.leb_spec i r) as [L1|L1];
      destruct (Nat.ltb_spec r (i + N)) as [L2|L2]; simpl;
      destruct (in_range_spec (p + i * array_size X) (N * array_size X)
                  (p + r * array_size X + k)) as [Q|Q];
      try reflexivity; exfalso.
    + pose proof (Nat.mul_le_mono_r i r (array_size X) L1).
      pose proof (Nat.mul_le_mono_r (S r) (i + N) (array_size X) L2). lia.
    + pose proof (Nat.mul_le_mono_r (i + N) r (array_size X) L2). lia.
    + pose proof (Nat.mul_le_mono_r (S r) i (array_size X) L1). lia.
    + pose proof (Nat.mul_le_mono_r (S r) i (array_size X) L1). lia.
  - intros q Q. rewrite fill_spec by discriminate.
    cbn [a]. rewrite !array_size_cons in *.
    destruct (in_range_spec p (M * array_size X) q); [discriminate|].
    destruct (in_range_spec (p + i * array_size X) (N * array_size X) q);
      [lia | reflexivity].
Qed.


(** X21: when the elements of the outermost dimension are not empty,
    [at(I)] returns exactly when the unchecked [w[I]] designates an element
    inside the referred-to array, and what it returns is that element. *)
Theorem at_returns_inside_only A w (i : nat) m :
  requires_array A = true ->
  0 < array_size (remove_extent A) ->
  (in_range (a w) (array_size A) (subscript A w i) = true <->
   fst (at_ A w i m) = Returns (subscript A w i)) /\
  (in_range (a w) (array_size A) (subscript A w i) = false <->
   fst (at_ A w i m) = Throws_out_of_range).
Proof.
  intros R P. destruct A as [|N X]; [discriminate|].
  unfold at_, subscript. rewrite array_size_cons. cbn [extent remove_extent] in *.
  destruct (Nat.leb_spec N i) as [L|L]; cbn [fst];
    destruct (in_range_spec (a w) (N * array_size X)
                (a w + i * array_size X)) as [Q|Q];
    repeat split; try congruence; exfalso;
    first
      [ pose proof (Nat.mul_le_mono_r N i (array_size X) L); lia
      | pose proof (Nat.mul_le_mono_r (S i) N (array_size X) L); lia ].
Qed.

End Windows.

(** ** Instances of the further properties *)

(** The comparisons of [int] and [bool] meet the conditions on the
    scalars. *)
Lemma int_eqv_refl (v : Z) : eqv v v = true.
Proof. apply Z.eqb_refl. Qed.

Lemma bool_eqv_refl (v : bool) : eqv v v = true.
Proof. now destruct v. Qed.

Lemma int_eqv_decides (s t : Z) : eqv s t = true <-> s = t.
Proof. apply Z.eqb_eq. Qed.

Lemma int_ltv_irrefl (s : Z) : ltv s s = false.
Proof. apply Z.ltb_irrefl. Qed.

Lemma int_ltv_trans (s t r : Z) :
  ltv s t = true -> ltv t r = true -> ltv s r = true.
Proof. simpl. rewrite !Z.ltb_lt. lia. Qed.

Lemma int_ltv_total (s t : Z) : ltv s t = false -> ltv t s = false -> s = t.
Proof. simpl. rewrite !Z.ltb_ge. lia. Qed.

Lemma fill_sets_every_scalar_witness :
  requires_array [2; 2] = true /\
  snd (fill [2; 2] (bind 0) true b_before) (a (bind 0) + 3) = true.
Proof.
  assert (R : requires_array [2; 2] = true) by reflexivity.
  split; [exact R|].
  destruct (@fill_sets_every_scalar bool [2; 2] (bind 0) true b_before R)
    as [E _].
  apply (E 3). simpl. lia.
Defined.

Lemma deep_assignment_copies_witness :
  requires_array [2; 2] = true /\
  (a (bind 0) <= 4 \/ 4 + array_size [2; 2] <= a (bind 0)) /\
  snd (assign [2; 2] (bind 0) 4 false_then_true) (a (bind 0) + 1)
  = false_then_true (4 + 1).
Proof.
  assert (R : requires_array [2; 2] = true) by reflexivity.
  assert (Hs : a (bind 0) <= 4 \/ 4 + array_size [2; 2] <= a (bind 0))
    by (simpl; lia).
  split; [exact R|]. split; [exact Hs|].
  destruct (@deep_assignment_copies bool [2; 2] (bind 0) 4 false_then_true
              R Hs) as [E _].
  apply (E 1). simpl. lia.
Defined.

Lemma assigned_compares_equal_witness :
  requires_array [2; 2] = true /\
  (a (bind 0) = 4 \/ a (bind 0) + array_size [2; 2] <= 4 \/
   4 + array_size [2; 2] <= a (bind 0)) /\
  eq_array [2; 2] (bind 0) 4 (snd (assign [2; 2] (bind 0) 4 last_differs))
  = true.
Proof.
  assert (R : requires_array [2; 2] = true) by reflexivity.
  assert (Hs : a (bind 0) = 4 \/ a (bind 0) + array_size [2; 2] <= 4 \/
              4 + array_size [2; 2] <= a (bind 0)) by (simpl; lia).
  split; [exact R|]. split; [exact Hs|].
  exact (@assigned_compares_equal Z _ [2; 2] (bind 0) 4 last_differs
           R int_eqv_refl Hs).
Defined.

Lemma deep_swap_twice_restores_witness :
  requires_array [2; 2] = true /\
  (a (bind 0) = 4 \/ a (bind 0) + array_size [2; 2] <= 4 \/
   4 + array_size [2; 2] <= a (bind 0)) /\
  snd (swap_array [2; 2] (bind 0) 4
         (snd (swap_array [2; 2] (bind 0) 4 last_differs))) 3
  = last_differs 3.
Proof.
  assert (R : requires_array [2; 2] = true) by reflexivity.
  assert (Hs : a (bind 0) = 4 \/ a (bind 0) + array_size [2; 2] <= 4 \/
              4 + array_size [2; 2] <= a (bind 0)) by (simpl; lia).
  split; [exact R|]. split; [exact Hs|].
  exact (@deep_swap_twice_restores Z [2; 2] (bind 0) 4 last_differs R Hs 3).
Defined.

Lemma free_deep_swaps_agree_witness :
  requires_array [2; 2] = true /\
  (0 = 4 \/ 0 + array_size [2; 2] <= 4 \/ 4 + array_size [2; 2] <= 0) /\
  snd (swap_free_ref_array [2; 2] (bind 0) 4 last_differs) 7 =
  snd (swap_free_array_ref [2; 2] 0 (bind 4) last_differs) 7.
Proof.
  assert (R : requires_array [2; 2] = true) by reflexivity.
  assert (Hs : 0 = 4 \/ 0 + array_size [2; 2] <= 4 \/
              4 + array_size [2; 2] <= 0) by (simpl; lia).
  split; [exact R|]. split; [exact Hs|].
  destruct (@free_deep_swaps_agree Z [2; 2] 0 4 last_differs R Hs) as [E _].
  apply (E 7).
Defined.

Lemma deep_swap_flips_comparisons_witness :
  requires_array [2; 2] = true /\
  (a (bind 0) + array_size [2; 2] <= 4 \/
   4 + array_size [2; 2] <= a (bind 0)) /\
  lt_ref [2; 2] (bind 0) (bind 4)
    (snd (swap_array [2; 2] (bind 0) 4 last_differs))
  = lt_ref [2; 2] (bind 4) (bind 0) last_differs.
Proof.
  assert (R : requires_array [2; 2] = true) by reflexivity.
  assert (D : a (bind 0) + array_size [2; 2] <= 4 \/
              4 + array_size [2; 2] <= a (bind 0)) by (simpl; lia).
  split; [exact R|]. split; [exact D|].
  destruct (@deep_swap_flips_comparisons Z _ [2; 2] (bind 0) 4 last_differs
              R D) as (_ & _ & _ & E).
  exact E.
Defined.

Lemma inequality_finds_a_difference_witness :
  requires_array [2; 2] = true /\
  (ne_ref [2; 2] (bind 0) (bind 4) last_differs = true <->
   exists k, k < array_size [2; 2] /\
     eqv (last_differs (a (bind 0) + k)) (last_differs (a (bind 4) + k))
     = false).
Proof.
  assert (R : requires_array [2; 2] = true) by reflexivity.
  split; [exact R|].
  exact (proj1 (@inequality_finds_a_difference Z _ [2; 2] (bind 0) (bind 4)
                  last_differs R)).
Defined.

Lemma ordering_is_a_strict_order_witness :
  lt_ref [2; 2] (bind 0) (bind 0) last_differs = false /\
  (lt_ref [2; 2] (bind 0) (bind 4) last_differs = true ->
   lt_ref [2; 2] (bind 4) (bind 0) last_differs = false).
Proof.
  destruct (@ordering_is_a_strict_order Z _ [2; 2] (bind 0) (bind 4) (bind 0)
              last_differs int_ltv_irrefl int_ltv_trans int_ltv_total)
    as (E1 & E2 & _).
  split; [exact E1 | exact E2].
Defined.

Lemma comparisons_are_consistent_witness :
  requires_array [2; 2] = true /\
  le_ref [2; 2] (bind 0) (bind 4) last_differs =
  lt_ref [2; 2] (bind 0) (bind 4) last_differs
  || eq_ref [2; 2] (bind 0) (bind 4) last_differs.
Proof.
  assert (R : requires_array [2; 2] = true) by reflexivity.
  split; [exact R|].
  destruct (@comparisons_are_consistent Z _ [2; 2] (bind 0) (bind 4)
              last_differs R int_ltv_irrefl int_ltv_trans int_ltv_total
              int_eqv_decides) as (_ & _ & E & _).
  exact E.
Defined.

Lemma front_and_back_are_in_bounds_witness :
  requires_array [2; 2] = true /\
  fst (at_ [2; 2] (bind 0) (size [2; 2] - 1) last_differs)
  = Returns (back [2; 2] (bind 0)) /\
  back [2; 2] (bind 0) + array_size (remove_extent [2; 2])
  = end_ [2; 2] (bind 0).
Proof.
  assert (R : requires_array [2; 2] = true) by reflexivity.
  split; [exact R|].
  destruct (@front_and_back_are_in_bounds Z [2; 2] (bind 0) last_differs R)
    as (_ & E1 & _ & E2 & _).
  split; [exact E1 | exact E2].
Defined.

Lemma indexing_chains_agree_witness :
  requires_array [2; 2] = true /\
  valid_index [2; 2] [1; 0] = true /\
  subscript_chain [2; 2] (bind 0) [1; 0] = a (bind 0) + offset [2; 2] [1; 0] /\
  paren_chain [2; 2] (bind 0) [1; 0]
  = Some (Elem (a (bind 0) + offset [2; 2] [1; 0])).
Proof.
  assert (R : requires_array [2; 2] = true) by reflexivity.
  assert (I : valid_index [2; 2] [1; 0] = true) by reflexivity.
  split; [exact R|]. split; [exact I|].
  exact (indexing_chains_agree [2; 2] (bind 0) [1; 0] R I).
Defined.

Lemma assigned_list_compares_equal_witness :
  requires_array [2; 2] = true /\
  well_formed_init [2; 2] one_clause = true /\
  (a (bind 0) + array_size [2; 2] <= 4 \/
   4 + array_size [2; 2] <= a (bind 0)) /\
  (a (bind 0) + array_size [2; 2] <= 8 \/
   8 + array_size [2; 2] <= a (bind 0)) /\
  eq_init [2; 2] (bind 0) one_clause 8
    (snd (assign_init [2; 2] (bind 0) one_clause 4 b_before)) = true.
Proof.
  assert (R : requires_array [2; 2] = true) by reflexivity.
  assert (W : well_formed_init [2; 2] one_clause = true) by reflexivity.
  assert (D1 : a (bind 0) + array_size [2; 2] <= 4 \/
               4 + array_size [2; 2] <= a (bind 0)) by (simpl; lia).
  assert (D2 : a (bind 0) + array_size [2; 2] <= 8 \/
               8 + array_size [2; 2] <= a (bind 0)) by (simpl; lia).
  split; [exact R|]. split; [exact W|]. split; [exact D1|].
  split; [exact D2|].
  exact (@assigned_list_compares_equal bool _ [2; 2] (bind 0) one_clause 4 8
           b_before R W bool_eqv_refl D1 D2).
Defined.

Lemma transpose_exchanges_rows_and_columns_witness :
  SquareArray [2; 2] = true /\
  transpose [2; 2] 0 last_differs (builtin_chain [2; 2] 0 [0; 1])
  = last_differs (builtin_chain [2; 2] 0 [1; 0]).
Proof.
  assert (Hs : SquareArray [2; 2] = true) by reflexivity.
  split; [exact Hs|].
  destruct (@transpose_exchanges_rows_and_columns Z [2; 2] 0 last_differs Hs)
    as [E _].
  apply (E 0 1); simpl; lia.
Defined.

Lemma transpose_twice_restores_witness :
  SquareArray [2; 2] = true /\
  transpose [2; 2] 0 (transpose [2; 2] 0 last_differs) 1 = last_differs 1.
Proof.
  assert (Hs : SquareArray [2; 2] = true) by reflexivity.
  split; [exact Hs|].
  exact (@transpose_twice_restores Z [2; 2] 0 last_differs Hs 1).
Defined.

Lemma trace_survives_transpose_witness :
  SquareArray [2; 2] = true /\
  trace Z.add [2; 2] 0 (transpose [2; 2] 0 last_differs)
  = trace Z.add [2; 2] 0 last_differs.
Proof.
  assert (Hs : SquareArray [2; 2] = true) by reflexivity.
  split; [exact Hs|].
  exact (@trace_survives_transpose Z Z.add [2; 2] 0 last_differs Hs).
Defined.

Lemma window_fill_touches_its_rows_witness :
  requires_array [2; 2] = true /\
  1 + 2 <= 4 /\
  subscript [2; 2] (window_at [2] 4 0 1) 1 = builtin_subscript [4; 2] 0 (1 + 1).
Proof.
  assert (R : requires_array [2; 2] = true) by reflexivity.
  assert (B : 1 + 2 <= 4) by lia.
  split; [exact R|]. split; [exact B|].
  destruct (@window_fill_touches_its_rows Z [2] 4 2 0 1 0%Z last_differs R B)
    as [E _].
  apply (E 1).
Defined.


Lemma at_returns_inside_only_witness :
  requires_array [2; 2] = true /\
  0 < array_size (remove_extent [2; 2]) /\
  (in_range (a (bind 0)) (array_size [2; 2]) (subscript [2; 2] (bind 0) 2)
   = false <->
   fst (at_ [2; 2] (bind 0) 2 last_differs) = Throws_out_of_range).
Proof.
  assert (R : requires_array [2; 2] = true) by reflexivity.
  assert (P : 0 < array_size (remove_extent [2; 2])) by (simpl; lia).
  split; [exact R|]. split; [exact P|].
  exact (proj2 (@at_returns_inside_only Z [2; 2] (bind 0) 2 last_differs R P)).
Defined.
